(** * The retrieval layer of the chat memory: RAG manager, drivers, circuit
      breaker and result cache (lib/memory/rag-manager.ts, lib/memory/embeddings.ts)

    The TypeScript sources are embedded as Rocq functions.  Mutable objects
    (the circuit breaker, the manager with its [Map] cache) are passed
    explicitly; a call that may throw returns [Exn + A]; everything the code
    obtains from outside the process (environment variables, [Date.now()],
    the HTTP call to the embedding service, the SQL client) is read from a
    [World] record, so that a statement quantified over every [World] holds
    under every behaviour of those collaborators. *)

From Stdlib Require Import ZArith QArith Qminmax Qround Qpower Lqa Sorted.
From Stdlib Require PrimFloat SpecFloat FloatOps.
From stdpp Require Import base option list strings pretty gmap.

Close Scope Q_scope.
Set Warnings "-register-all".

Local Open Scope Z_scope.
Local Open Scope string_scope.

(** ** JavaScript values and completions *)

(** A thrown JavaScript value.  The sources only ever throw [Error] objects;
    the runtime adds [TypeError]. *)
Inductive Exn : Type :=
| Error (message : string)
| TypeError (message : string).

(** The completion of a call: [inl e] is an abrupt completion that throws
    [e] (for an [async] function: a rejected promise), [inr a] a normal one
    (a promise fulfilled with [a]). *)
Definition Js (A : Type) : Type := (Exn + A)%type.

Definition throw {A} (e : Exn) : Js A := inl e.

#[export] Instance Js_ret : MRet Js := fun _ a => inr a.
#[export] Instance Js_bind : MBind Js := fun _ _ f m =>
  match m with
  | inl e => inl e
  | inr a => f a
  end.

(** [try { body } catch (e) { handler }] *)
Definition try_catch {A} (body : Js A) (handler : Exn -> Js A) : Js A :=
  match body with
  | inl e => handler e
  | inr a => inr a
  end.

(** [try { body } finally { cleanup }]: the cleanup runs whatever the body
    did, and an exception of the cleanup replaces the body's completion. *)
Definition try_finally {A} (body : Js A) (cleanup : Js unit) : Js A :=
  match cleanup with
  | inl e => inl e
  | inr _ => body
  end.

(** Plain data of type [any]: the values that [JSON.parse] produces,
    BigInts, and [undefined].  Strings are sequences of code units below
    256; a number inside these values is an integer below 2 ^ 53 in absolute
    value, whose [ToString] is its decimal numeral; an object is a plain
    object, given by its own enumerable data properties in enumeration
    order.  Values outside this type, on which [JSON.stringify] behaves
    differently, are not described: an object or array reachable from
    itself (a TypeError for a circular structure), an object with a
    [toJSON] method or a getter, a number that is not an integer or is
    printed with an exponent. *)
Inductive JsValue : Type :=
| JsUndefined
| JsNull
| JsBool (b : bool)
| JsNumber (n : Z)
| JsBigInt (n : Z)
| JsString (s : string)
| JsArray (items : list JsValue)
| JsObject (props : list (string * JsValue)).

Module JSON.

Definition char (n : nat) : string := String (Ascii.ascii_of_nat n) EmptyString.

Definition dquote : string := char 34.
Definition backslash : string := char 92.

Definition hex_digit (n : nat) : string :=
  char (if Nat.ltb n 10 then 48 + n else 87 + n)%nat.

(** One code unit of QuoteJSONString. *)
Definition quote_char (c : Ascii.ascii) : string :=
  let n := Ascii.nat_of_ascii c in
  if Nat.eqb n 8 then backslash +:+ "b"
  else if Nat.eqb n 9 then backslash +:+ "t"
  else if Nat.eqb n 10 then backslash +:+ "n"
  else if Nat.eqb n 12 then backslash +:+ "f"
  else if Nat.eqb n 13 then backslash +:+ "r"
  else if Nat.eqb n 34 then backslash +:+ dquote
  else if Nat.eqb n 92 then backslash +:+ backslash
  else if Nat.ltb n 32 then
    backslash +:+ "u00" +:+ hex_digit (n / 16) +:+ hex_digit (n mod 16)
  else String c EmptyString.

Fixpoint quote_chars (s : string) : string :=
  match s with
  | EmptyString => EmptyString
  | String c s' => quote_char c +:+ quote_chars s'
  end.

Definition QuoteJSONString (s : string) : string :=
  dquote +:+ quote_chars s +:+ dquote.

Fixpoint join (sep : string) (parts : list string) : string :=
  match parts with
  | [] => EmptyString
  | [p] => p
  | p :: rest => p +:+ sep +:+ join sep rest
  end.

(** SerializeJSONProperty: [inr None] is the result [undefined], and a
    BigInt anywhere in the value raises a TypeError. *)
Fixpoint SerializeJSONProperty (v : JsValue) : Js (option string) :=
  match v with
  | JsUndefined => inr None
  | JsNull => inr (Some "null")
  | JsBool b => inr (Some (if b then "true" else "false"))
  | JsNumber n => inr (Some (pretty n))
  | JsBigInt _ => throw (TypeError "Do not know how to serialize a BigInt")
  | JsString s => inr (Some (QuoteJSONString s))
  | JsArray items =>
      let elements :=
        (fix elements (l : list JsValue) : Js (list string) :=
           match l with
           | [] => inr []
           | x :: l' =>
               match SerializeJSONProperty x with
               | inl e => inl e
               | inr strP =>
                   match elements l' with
                   | inl e => inl e
                   | inr partial => inr (default "null" strP :: partial)
                   end
               end
           end) in
      match elements items with
      | inl e => inl e
      | inr partial => inr (Some ("[" +:+ join "," partial +:+ "]"))
      end
  | JsObject props =>
      let members :=
        (fix members (l : list (string * JsValue)) : Js (list string) :=
           match l with
           | [] => inr []
           | (P, x) :: l' =>
               match SerializeJSONProperty x with
               | inl e => inl e
               | inr strP =>
                   match members l' with
                   | inl e => inl e
                   | inr partial =>
                       inr (match strP with
                            | None => partial
                            | Some str =>
                                (QuoteJSONString P +:+ ":" +:+ str) :: partial
                            end)
                   end
               end
           end) in
      match members props with
      | inl e => inl e
      | inr partial => inr (Some ("{" +:+ join "," partial +:+ "}"))
      end
  end.

Definition stringify (v : JsValue) : Js (option string) :=
  SerializeJSONProperty v.

End JSON.

(** [`${x}`] for [x : string | undefined]. *)
Definition template_of (x : option string) : string := default "undefined" x.

(** [x || y] and [!x] on an optional string: [undefined] and the empty
    string are falsy. *)
Definition truthy_string (x : option string) : option string :=
  match x with
  | Some EmptyString | None => None
  | Some s => Some s
  end.

(** [x || y] *)
Definition or_else (x y : option string) : option string :=
  match truthy_string x with
  | Some s => Some s
  | None => y
  end.

(** [query || ""] on a string *)
Definition or_empty (query : string) : string :=
  match query with
  | EmptyString => ""
  | _ => query
  end.

(** [String.prototype.toLowerCase] on code units below 256. *)
Definition lower_char (c : Ascii.ascii) : Ascii.ascii :=
  let n := Ascii.nat_of_ascii c in
  if (Nat.leb 65 n && Nat.leb n 90)
     || (Nat.leb 192 n && Nat.leb n 222 && negb (Nat.eqb n 215))
  then Ascii.ascii_of_nat (n + 32)
  else c.

Fixpoint toLowerCase (s : string) : string :=
  match s with
  | EmptyString => EmptyString
  | String c s' => String (lower_char c) (toLowerCase s')
  end.

(** Property access [v.P] and [v[i]] on a value that is neither [null] nor
    [undefined], for the property names used here (none of them is on a
    prototype). *)
Fixpoint assoc (P : string) (props : list (string * JsValue)) : JsValue :=
  match props with
  | [] => JsUndefined
  | (P', x) :: rest => if String.eqb P P' then x else assoc P rest
  end.

Definition get_prop (v : JsValue) (P : string) : JsValue :=
  match v with
  | JsObject props => assoc P props
  | _ => JsUndefined
  end.

Definition get_index (v : JsValue) (i : nat) : JsValue :=
  match v with
  | JsObject props => assoc (pretty i) props
  | JsArray items => default JsUndefined (items !! i)
  | JsString s =>
      match String.get i s with
      | Some c => JsString (String c EmptyString)
      | None => JsUndefined
      end
  | _ => JsUndefined
  end.

(** Optional chaining [v?.(...)]. *)
Definition opt_chain (v : JsValue) (access : JsValue -> JsValue) : JsValue :=
  match v with
  | JsUndefined | JsNull => JsUndefined
  | _ => access v
  end.

(** ** Data model (rag-manager.ts, lines 36-65) *)

Inductive RAGSource : Type := vectorDB_source | webSearch | internalDocs | partnerAPIs.

Inductive RAGProvider : Type := pgIlike | vectorDB.

Definition provider_name (p : RAGProvider) : string :=
  match p with
  | pgIlike => "pgIlike"
  | vectorDB => "vectorDB"
  end.

(** The [metadata] object the two drivers build; [md_distance] is absent
    ([None]) in the literal driver and holds the row's column, which may be
    SQL NULL, in the vector driver. *)
Record Metadata : Type := {
  md_key : JsValue;
  md_layer : JsValue;
  md_updatedAt : JsValue;
  md_distance : option (option Q)
}.

(** [content] is [None] when [JSON.stringify] returned [undefined]. *)
Record RAGSnippet : Type := {
  source : RAGSource;
  content : option string;
  confidence : Q;
  metadata : option Metadata
}.

Record RAGCitation : Type := {
  cit_source : string;
  cit_url : option string;
  cit_title : option string
}.

Record RAGResult : Type := {
  ok : bool;
  degraded : option bool;
  snippets : list RAGSnippet;
  citations : option (list RAGCitation)
}.

(** A row of [memories] as the SQL client hands it over.  [row_distance] is
    the float8 column computed by the nearest-neighbour query: a finite
    double is the rational it denotes, and [None] is a column without a
    number, SQL NULL or NaN, which are both falsy, so that
    [r.distance || 0] replaces either by 0.  An infinite distance is not
    described.  The arithmetic on these values is that of doubles, see
    [round_double]. *)
Record Row : Type := {
  row_key : JsValue;
  row_layer : JsValue;
  row_content : JsValue;
  row_updated_at : JsValue;
  row_distance : option Q
}.

(** The [Response] of [fetch]. *)
Record Response : Type := {
  res_ok : bool;
  res_status : Z;
  res_text : Js string;
  res_json : Js JsValue
}.

Definition Hints : Type := list (string * JsValue).

(** ** The world outside the process

    One [World] describes what the collaborators do during one call: the
    environment variables, the clock readings at the three places that
    call [Date.now()], and the completions of the external calls. *)
Record World : Type := {
  POSTGRES_URL : option string;
  OPENAI_API_KEY : option string;
  OPENAI_EMBEDDING_MODEL : option string;
  RAG_PROVIDER : option string;
  (** [Date.now()] in [retrieve], in [canTry] and in [onFailure] *)
  now_retrieve : Z;
  now_canTry : Z;
  now_onFailure : Z;
  (** [postgres(url)]: building the client *)
  postgres : string -> Js unit;
  (** [fetch] of the embeddings endpoint with this key, model and input *)
  fetch_embeddings : string -> string -> string -> Js Response;
  (** the LIKE query with its pattern, the nearest-neighbour query with the
      query vector *)
  sql_like : string -> Js (list Row);
  sql_nearest : list JsValue -> Js (list Row);
  (** [sql.end({ timeout: 1 })] *)
  sql_end : Js unit
}.

(** ** embeddings.ts *)

Definition DEFAULT_MODEL (w : World) : string :=
  default "text-embedding-3-small" (truthy_string (OPENAI_EMBEDDING_MODEL w)).

Definition embedText (w : World) (input : string) (apiKey : option string)
    (model : string) : Js (list JsValue) :=
  match truthy_string (or_else apiKey (OPENAI_API_KEY w)) with
  | None => throw (Error "OPENAI_API_KEY is required to run embeddings")
  | Some key =>
      res ← fetch_embeddings w key model input;
      if negb (res_ok res) then
        txt ← res_text res;
        throw (Error ("OpenAI embeddings failed: " +:+ pretty (res_status res)
                      +:+ " " +:+ txt))
      else
        json ← res_json res;
        let vec :=
          opt_chain (opt_chain (opt_chain json (fun j => get_prop j "data"))
                               (fun d => get_index d 0))
                    (fun x => get_prop x "embedding") in
        match vec with
        | JsArray items => mret items
        | _ => throw (Error "Invalid embedding response")
        end
  end.

(** ** Numbers: binary64 arithmetic

    A JavaScript number is an IEEE 754 binary64 value.  A finite one is
    represented by the rational it denotes, and an arithmetic operation is
    the exact operation on rationals followed by [round_double], the
    rounding to the nearest double, ties to the even significand.  Doubles
    have 53 significant bits; the spacing of the doubles around [x] is
    [2 ^ p] with [p = max (binade x) (-1022) - 52], where [2 ^ binade x] is
    the largest power of two that does not exceed [|x|] and [-1022] is the
    exponent of the smallest normal double (below it the spacing stays
    [2 ^ -1074]).  The overflow to [Infinity] beyond [2 ^ 1024] is left
    out: [1 - d] stays in range for every double [d].  The examples
    [round_double_is_binary64_subtraction] and
    [round_double_is_binary64_product] compare [round_double] with the
    doubles of the processor. *)

Definition pow2 (e : Z) : Q := Qpower 2 e.

(** The nearest integer, a tie going to the even one. *)
Definition round_half_even (x : Q) : Z :=
  let f := Qfloor x in
  match Qcompare (x - inject_Z f) (1 # 2) with
  | Lt => f
  | Gt => (f + 1)%Z
  | Eq => if Z.even f then f else (f + 1)%Z
  end.

(** For [0 < x]: the exponent [e] with [2 ^ e <= x < 2 ^ (e + 1)]. *)
Definition binade (x : Q) : Z :=
  let e := (Z.log2 (Qnum x) - Z.log2 (Zpos (Qden x)))%Z in
  if Qle_bool (pow2 e) x then e else (e - 1)%Z.

(** The double nearest to [x], for [0 < x]. *)
Definition round_magnitude (x : Q) : Q :=
  let p := (Z.max (binade x) (-1022) - 52)%Z in
  (inject_Z (round_half_even (x / pow2 p)) * pow2 p)%Q.

Definition round_double (x : Q) : Q :=
  match Qcompare x 0 with
  | Eq => 0%Q
  | Gt => round_magnitude x
  | Lt => (- round_magnitude (- x))%Q
  end.


(** The doubles of the Rocq kernel, which are the binary64 values of the
    processor, to compare [round_double] with. *)
Module Binary64.

(** The rational a finite double denotes. *)
Definition value (f : PrimFloat.float) : option Q :=
  match FloatOps.Prim2SF f with
  | SpecFloat.S754_zero _ => Some 0%Q
  | SpecFloat.S754_finite s m e =>
      Some ((if s then - 1 else 1) * inject_Z (Zpos m) * pow2 e)%Q
  | _ => None
  end.

(** The double [m * 2 ^ e], for [|m| < 2 ^ 53]. *)
Definition make (m e : Z) : PrimFloat.float :=
  match m with
  | Z0 => PrimFloat.zero
  | Zpos k => FloatOps.SF2Prim (SpecFloat.S754_finite false k e)
  | Zneg k => FloatOps.SF2Prim (SpecFloat.S754_finite true k e)
  end.

(** Does [1 - d], computed by the processor, denote
    [round_double (1 - value d)]? *)
Definition sub_from_1_agrees (d : PrimFloat.float) : bool :=
  match value d, value (PrimFloat.sub PrimFloat.one d) with
  | Some q, Some r => Qeq_bool (round_double (1 - q)) r
  | _, _ => false
  end.

(** The same for a product, which reaches the subnormal doubles. *)
Definition mul_agrees (a b : PrimFloat.float) : bool :=
  match value a, value b, value (PrimFloat.mul a b) with
  | Some q, Some r, Some s => Qeq_bool (round_double (q * r)) s
  | _, _, _ => false
  end.

End Binary64.

(** ** rag-manager.ts: the drivers *)

(** The literal [{ ok: false, degraded: true, snippets: [] }]. *)
Definition failed_result : RAGResult :=
  {| ok := false; degraded := Some true; snippets := []; citations := None |}.

(** [typeof r.content === "string" ? r.content : JSON.stringify(r.content)] *)
Definition content_of (r : Row) : Js (option string) :=
  match row_content r with
  | JsString s => mret (Some s)
  | v => JSON.stringify v
  end.

Module PgIlikeDriver.

Definition name : RAGProvider := pgIlike.

(** The confidence is the literal [0.6], written [6 # 10]: the driver
    stores it and never computes with it. *)
Definition snippet_of (r : Row) : Js RAGSnippet :=
  c ← content_of r;
  mret {| source := internalDocs;
          content := c;
          confidence := (6 # 10)%Q;
          metadata := Some {| md_key := row_key r;
                              md_layer := row_layer r;
                              md_updatedAt := row_updated_at r;
                              md_distance := None |} |}.

Definition search (w : World) (query : string) (hints : option Hints)
    : Js RAGResult :=
  match truthy_string (POSTGRES_URL w) with
  | None => mret failed_result
  | Some url =>
      sql ← postgres w url;
      try_finally
        (let q := "%" +:+ toLowerCase (or_empty query) +:+ "%" in
         rows ← sql_like w q;
         snippets ← mapM snippet_of rows;
         mret {| ok := true; degraded := None; snippets := snippets;
                 citations := None |})
        (sql_end w)
  end.

End PgIlikeDriver.

Module VectorDbDriver.

Definition name : RAGProvider := vectorDB.

(** [r.distance || 0]: NULL and zero are falsy. *)
Definition distance_or_0 (d : option Q) : Q :=
  match d with
  | Some x => if Qeq_bool x 0 then 0%Q else x
  | None => 0%Q
  end.

(** [Math.max(0, 1 - Number(r.distance || 0))]: the subtraction is one of
    doubles, [Math.max] is exact. *)
Definition confidence_of (d : option Q) : Q :=
  Qmax 0 (round_double (1 - distance_or_0 d)).

Definition snippet_of (r : Row) : Js RAGSnippet :=
  c ← content_of r;
  mret {| source := internalDocs;
          content := c;
          confidence := confidence_of (row_distance r);
          metadata := Some {| md_key := row_key r;
                              md_layer := row_layer r;
                              md_updatedAt := row_updated_at r;
                              md_distance := Some (row_distance r) |} |}.

Definition search (w : World) (query : string) (hints : option Hints)
    : Js RAGResult :=
  match truthy_string (POSTGRES_URL w) with
  | None => mret failed_result
  | Some url =>
      sql ← postgres w url;
      try_finally
        (try_catch
           (qvec ← embedText w (or_empty query) None (DEFAULT_MODEL w);
            rows ← sql_nearest w qvec;
            snippets ← mapM snippet_of rows;
            mret {| ok := true; degraded := None; snippets := snippets;
                    citations := None |})
           (fun e => mret failed_result))
        (sql_end w)
  end.

End VectorDbDriver.

(** ** rag-manager.ts: the circuit breaker *)

Inductive CBState : Type := CLOSED | OPEN | HALF_OPEN.

#[export] Instance CBState_eq_dec : EqDecision CBState.
Proof. solve_decision. Defined.

Module CircuitBreaker.

Record t : Type := mk {
  state : CBState;
  failureCount : Z;
  threshold : Z;
  cooldownMs : Z;
  nextTryAt : Z
}.

Record Opts : Type := {
  opt_threshold : option Z;
  opt_cooldownMs : option Z
}.

(** [constructor(opts?)] *)
Definition new (opts : option Opts) : t :=
  {| state := CLOSED;
     failureCount := 0;
     threshold := default 3 (opts ≫= opt_threshold);
     cooldownMs := default 5000 (opts ≫= opt_cooldownMs);
     nextTryAt := 0 |}.

Definition onSuccess (this : t) : t :=
  {| state := CLOSED;
     failureCount := 0;
     threshold := threshold this;
     cooldownMs := cooldownMs this;
     nextTryAt := nextTryAt this |}.

(** [now] is the reading of [Date.now()] inside the method. *)
Definition onFailure (now : Z) (this : t) : t :=
  let count := failureCount this + 1 in
  if (threshold this <=? count)%Z then
    {| state := OPEN;
       failureCount := count;
       threshold := threshold this;
       cooldownMs := cooldownMs this;
       nextTryAt := now + cooldownMs this |}
  else
    {| state := state this;
       failureCount := count;
       threshold := threshold this;
       cooldownMs := cooldownMs this;
       nextTryAt := nextTryAt this |}.

Definition set_state (s : CBState) (this : t) : t :=
  {| state := s;
     failureCount := failureCount this;
     threshold := threshold this;
     cooldownMs := cooldownMs this;
     nextTryAt := nextTryAt this |}.

Definition canTry (now : Z) (this : t) : bool * t :=
  if bool_decide (state this = OPEN) && (nextTryAt this <=? now)%Z then
    (true, set_state HALF_OPEN this)
  else
    (negb (bool_decide (state this = OPEN)), this).

Definition getState (this : t) : CBState := state this.

End CircuitBreaker.

(** ** rag-manager.ts: the manager *)

Record CacheEntry : Type := {
  at_ : Z;
  result : RAGResult
}.

(** [{ ...fallback, degraded: true }] *)
Definition degrade (fallback : RAGResult) : RAGResult :=
  {| ok := ok fallback;
     degraded := Some true;
     snippets := snippets fallback;
     citations := citations fallback |}.

(** [driver.search] on the driver chosen at construction. *)
Definition driver_search (d : RAGProvider) : World -> string -> option Hints -> Js RAGResult :=
  match d with
  | pgIlike => PgIlikeDriver.search
  | vectorDB => VectorDbDriver.search
  end.

Module RAGManager.

Record t : Type := mk {
  cache : gmap string CacheEntry;
  circuitBreaker : CircuitBreaker.t;
  driver : RAGProvider;
  ttlMs : Z
}.

Record Opts : Type := {
  opt_provider : option RAGProvider;
  opt_ttlMs : option Z
}.

(** [constructor(opts?)]; any [RAG_PROVIDER] other than the string
    vectorDB selects the literal driver. *)
Definition new (w : World) (opts : option Opts) : t :=
  let provider :=
    match opts ≫= opt_provider with
    | Some p => provider_name p
    | None => default "pgIlike" (RAG_PROVIDER w)
    end in
  {| cache := ∅;
     circuitBreaker := CircuitBreaker.new None;
     driver := if String.eqb provider "vectorDB" then vectorDB else pgIlike;
     ttlMs := default 15000 (opts ≫= opt_ttlMs) |}.

(** [key(query, hints)]; [hints ?? {}] is the empty object when no hints
    are passed. *)
Definition key (this : t) (query : string) (hints : option Hints) : Js string :=
  h ← JSON.stringify (JsObject (default [] hints));
  mret (provider_name (driver this) +:+ ":" +:+ query +:+ ":" +:+ template_of h).

(** What one call of [retrieve] leaves behind: how its promise settled,
    the manager after the call, and how many times it called
    [driver.search]. *)
Record Outcome : Type := {
  settled : Js RAGResult;
  manager : t;
  searches : nat
}.

Definition set_breaker (cb : CircuitBreaker.t) (this : t) : t :=
  {| cache := cache this; circuitBreaker := cb;
     driver := driver this; ttlMs := ttlMs this |}.

Definition set_cache (c : gmap string CacheEntry) (this : t) : t :=
  {| cache := c; circuitBreaker := circuitBreaker this;
     driver := driver this; ttlMs := ttlMs this |}.

(** [cached?.result ?? { ok: false, degraded: true, snippets: [] }],
    returned as [{ ...fallback, degraded: true }] *)
Definition fallback (cached : option CacheEntry) : RAGResult :=
  degrade (default failed_result (result <$> cached)).

(** [if (cached && now - cached.at < this.ttlMs) return cached.result] *)
Definition fresh (this : t) (now : Z) (cached : option CacheEntry) : option RAGResult :=
  match cached with
  | Some c => if (now - at_ c <? ttlMs this)%Z then Some (result c) else None
  | None => None
  end.

Definition retrieve (w : World) (query : string) (hints : option Hints)
    (this : t) : Outcome :=
  match key this query hints with
  | inl e => {| settled := inl e; manager := this; searches := 0 |}
  | inr cacheKey =>
      let cached := cache this !! cacheKey in
      let now := now_retrieve w in
      match fresh this now cached with
      | Some hit => {| settled := inr hit; manager := this; searches := 0 |}
      | None =>
        let '(allowed, cb) := CircuitBreaker.canTry (now_canTry w) (circuitBreaker this) in
        if negb allowed then
          {| settled := inr (fallback cached);
             manager := set_breaker cb this; searches := 0 |}
        else
          match driver_search (driver this) w query hints with
          | inr res =>
              if ok res then
                {| settled := inr res;
                   manager :=
                     set_cache (<[cacheKey := {| at_ := now; result := res |}]> (cache this))
                               (set_breaker (CircuitBreaker.onSuccess cb) this);
                   searches := 1 |}
              else
                {| settled := inr (fallback cached);
                   manager :=
                     set_breaker (CircuitBreaker.onFailure (now_onFailure w) cb) this;
                   searches := 1 |}
          | inl _ =>
              {| settled := inr (fallback cached);
                 manager :=
                   set_breaker (CircuitBreaker.onFailure (now_onFailure w) cb) this;
                 searches := 1 |}
          end
      end
  end.

Definition getCircuitBreakerState (this : t) : CBState :=
  CircuitBreaker.getState (circuitBreaker this).

Definition clearCache (this : t) : t := set_cache ∅ this.

End RAGManager.

(** ** Sequences of calls on one manager *)

Inductive Call : Type :=
| Retrieve (w : World) (query : string) (hints : option Hints)
| ClearCache.

Definition call (m : RAGManager.t) (c : Call) : RAGManager.t :=
  match c with
  | Retrieve w query hints => RAGManager.manager (RAGManager.retrieve w query hints m)
  | ClearCache => RAGManager.clearCache m
  end.

Definition calls (cs : list Call) (m : RAGManager.t) : RAGManager.t :=
  foldl call m cs.

(** Calls on a circuit breaker, each with the clock reading it sees. *)
Inductive BreakerCall : Type :=
| OnSuccess
| OnFailure (now : Z)
| CanTry (now : Z).

Definition breaker_call (cb : CircuitBreaker.t) (c : BreakerCall) : CircuitBreaker.t :=
  match c with
  | OnSuccess => CircuitBreaker.onSuccess cb
  | OnFailure now => CircuitBreaker.onFailure now cb
  | CanTry now => snd (CircuitBreaker.canTry now cb)
  end.

Definition breaker_calls (cs : list BreakerCall) (cb : CircuitBreaker.t) : CircuitBreaker.t :=
  foldl breaker_call cb cs.

(** ** Predicates used in the statements *)

(** Once the breaker has left CLOSED, the failure count is at or above
    the threshold. *)
Definition tripped_at_threshold (cb : CircuitBreaker.t) : Prop :=
  CircuitBreaker.state cb <> CLOSED ->
  (CircuitBreaker.threshold cb <= CircuitBreaker.failureCount cb)%Z.

(** What a driver returns is the failure literal or a result it built on
    the success path, which carries no [degraded] field. *)
Definition driver_result (res : RAGResult) : Prop :=
  res = failed_result \/
  (ok res = true /\ degraded res = None /\ citations res = None).

(** The embedding of the query, as the vector driver asks for it. *)
Definition query_embedding (w : World) (query : string) : Js (list JsValue) :=
  embedText w (or_empty query) None (DEFAULT_MODEL w).

(** The strategy failed: it threw, or returned a result with [ok = false]. *)
Definition search_failed (completion : Js RAGResult) : bool :=
  match completion with
  | inl _ => true
  | inr res => negb (ok res)
  end.

(** Every cache entry was written by one of the calls [cs]: its result is
    what the strategy returned to that call, with [ok = true] and without
    the [degraded] mark of a fallback, under the fingerprint of that call
    and stamped with the clock reading of that call. *)
Definition written_by (cs : list Call) (m : RAGManager.t) : Prop :=
  forall k entry,
    RAGManager.cache m !! k = Some entry ->
    ok (result entry) = true /\
    degraded (result entry) = None /\
    exists w query hints,
      In (Retrieve w query hints) cs /\
      RAGManager.key m query hints = inr k /\
      driver_search (RAGManager.driver m) w query hints = inr (result entry) /\
      at_ entry = now_retrieve w.

(** A retrieve call for a query that has no cache entry and on which the
    strategy fails. *)
Definition failing_uncached (m : RAGManager.t) (c : Call) : Prop :=
  match c with
  | Retrieve w query hints =>
      exists cacheKey,
        RAGManager.key m query hints = inr cacheKey /\
        RAGManager.cache m !! cacheKey = None /\
        search_failed (driver_search (RAGManager.driver m) w query hints) = true
  | ClearCache => False
  end.

(** Does a BigInt occur in the value? *)
Fixpoint has_bigint (v : JsValue) : bool :=
  match v with
  | JsBigInt _ => true
  | JsArray items => existsb has_bigint items
  | JsObject props =>
      (fix any (l : list (string * JsValue)) : bool :=
         match l with
         | [] => false
         | (_, x) :: l' => has_bigint x || any l'
         end) props
  | _ => false
  end.

Section JsValue_induction.

Variable P : JsValue -> Prop.
Hypothesis P_undefined : P JsUndefined.
Hypothesis P_null : P JsNull.
Hypothesis P_bool : forall b, P (JsBool b).
Hypothesis P_number : forall n, P (JsNumber n).
Hypothesis P_bigint : forall n, P (JsBigInt n).
Hypothesis P_string : forall s, P (JsString s).
Hypothesis P_array : forall items, Forall P items -> P (JsArray items).
Hypothesis P_object : forall props, Forall (fun kv => P (snd kv)) props -> P (JsObject props).

Fixpoint JsValue_nested_ind (v : JsValue) : P v :=
  match v with
  | JsUndefined => P_undefined
  | JsNull => P_null
  | JsBool b => P_bool b
  | JsNumber n => P_number n
  | JsBigInt n => P_bigint n
  | JsString s => P_string s
  | JsArray items =>
      P_array items
        ((fix all (l : list JsValue) : Forall P l :=
            match l with
            | [] => List.Forall_nil P
            | x :: l' => List.Forall_cons P x l' (JsValue_nested_ind x) (all l')
            end) items)
  | JsObject props =>
      P_object props
        ((fix all (l : list (string * JsValue)) : Forall (fun kv => P (snd kv)) l :=
            match l with
            | [] => List.Forall_nil _
            | kv :: l' =>
                List.Forall_cons (fun kv => P (snd kv)) kv l'
                  (JsValue_nested_ind (snd kv)) (all l')
            end) props)
  end.

End JsValue_induction.

(** *** Sample worlds *)

Definition row_theme : Row :=
  {| row_key := JsString "k1";
     row_layer := JsString "permanent";
     row_content := JsString "dark theme preference";
     row_updated_at := JsNull;
     row_distance := Some (1 # 4)%Q |}.

Definition row_far : Row :=
  {| row_key := JsString "k2";
     row_layer := JsString "context";
     row_content := JsObject [("note", JsString "invoice"); ("pages", JsNumber 2)];
     row_updated_at := JsNull;
     row_distance := Some (3 # 2)%Q |}.

Definition embedding_reply : Response :=
  {| res_ok := true;
     res_status := 200;
     res_text := inr "";
     res_json :=
       inr (JsObject [("data",
                       JsArray [JsObject [("embedding",
                                           JsArray [JsNumber 1; JsNumber 0])]])]) |}.

(** A world whose clock reads [now] throughout, with every variable set,
    a reachable embedding service, and a store that answers both queries
    with [store]. *)
Definition world_at (now : Z) (store : Js (list Row)) : World :=
  {| POSTGRES_URL := Some "postgres://db/app";
     OPENAI_API_KEY := Some "sk-test";
     OPENAI_EMBEDDING_MODEL := None;
     RAG_PROVIDER := None;
     now_retrieve := now;
     now_canTry := now;
     now_onFailure := now;
     postgres := fun _ => inr ();
     fetch_embeddings := fun _ _ _ => inr embedding_reply;
     sql_like := fun _ => store;
     sql_nearest := fun _ => store;
     sql_end := inr () |}.

Definition store_up : Js (list Row) := inr [row_theme; row_far].
Definition store_down : Js (list Row) := inl (Error "connect ECONNREFUSED").

(** The connection variable is not set. *)
Definition world_unconfigured : World :=
  {| POSTGRES_URL := None;
     OPENAI_API_KEY := None;
     OPENAI_EMBEDDING_MODEL := None;
     RAG_PROVIDER := None;
     now_retrieve := 0;
     now_canTry := 0;
     now_onFailure := 0;
     postgres := fun _ => inr ();
     fetch_embeddings := fun _ _ _ => inl (TypeError "fetch failed");
     sql_like := fun _ => store_down;
     sql_nearest := fun _ => store_down;
     sql_end := inr () |}.

(** The connection variable holds a host and a database without a scheme,
    which is no URL: building the client throws. *)
Definition world_bad_url : World :=
  {| POSTGRES_URL := Some "db.internal/app";
     OPENAI_API_KEY := Some "sk-test";
     OPENAI_EMBEDDING_MODEL := None;
     RAG_PROVIDER := Some "vectorDB";
     now_retrieve := 0;
     now_canTry := 0;
     now_onFailure := 0;
     postgres := fun _ => inl (TypeError "Invalid URL");
     fetch_embeddings := fun _ _ _ => inr embedding_reply;
     sql_like := fun _ => store_up;
     sql_nearest := fun _ => store_up;
     sql_end := inr () |}.

(** The embedding service is unreachable, and closing the client fails as
    well. *)
Definition world_end_fails : World :=
  {| POSTGRES_URL := Some "postgres://db/app";
     OPENAI_API_KEY := Some "sk-test";
     OPENAI_EMBEDDING_MODEL := None;
     RAG_PROVIDER := Some "vectorDB";
     now_retrieve := 0;
     now_canTry := 0;
     now_onFailure := 0;
     postgres := fun _ => inr ();
     fetch_embeddings := fun _ _ _ => inl (TypeError "fetch failed");
     sql_like := fun _ => store_down;
     sql_nearest := fun _ => store_down;
     sql_end := inl (Error "connection closed") |}.


(** *** Sample managers *)

(** A manager on the literal driver that has answered one query at time
    1000 from a healthy store. *)
Definition manager_warm : RAGManager.t :=
  calls [Retrieve (world_at 1000 store_up) "theme" None]
        (RAGManager.new (world_at 0 store_up) None).

(** The same manager after three failed calls for other queries at time
    20000: the breaker is OPEN until 25000 and the entry is 19000 ms old. *)
Definition manager_tripped : RAGManager.t :=
  calls [Retrieve (world_at 20000 store_down) "q1" None;
         Retrieve (world_at 20000 store_down) "q2" None;
         Retrieve (world_at 20000 store_down) "q3" None]
        manager_warm.

Definition entry_theme : CacheEntry :=
  {| at_ := 1000;
     result := {| ok := true; degraded := None;
                  snippets :=
                    [ {| source := internalDocs;
                         content := Some "dark theme preference";
                         confidence := (6 # 10)%Q;
                         metadata := Some {| md_key := JsString "k1";
                                             md_layer := JsString "permanent";
                                             md_updatedAt := JsNull;
                                             md_distance := None |} |};
                      {| source := internalDocs;
                         content := Some ("{" +:+ JSON.dquote +:+ "note" +:+ JSON.dquote
                                          +:+ ":" +:+ JSON.dquote +:+ "invoice"
                                          +:+ JSON.dquote +:+ "," +:+ JSON.dquote
                                          +:+ "pages" +:+ JSON.dquote +:+ ":2}");
                         confidence := (6 # 10)%Q;
                         metadata := Some {| md_key := JsString "k2";
                                             md_layer := JsString "context";
                                             md_updatedAt := JsNull;
                                             md_distance := None |} |} ];
                  citations := None |} |}.

(** ** Further predicates and measures *)

(** What every breaker reached from a new one satisfies. *)
Definition breaker_reached (opts : option CircuitBreaker.Opts) (cs : list BreakerCall)
    (cb : CircuitBreaker.t) : Prop :=
  (0 <= CircuitBreaker.failureCount cb)%Z /\
  CircuitBreaker.threshold cb = CircuitBreaker.threshold (CircuitBreaker.new opts) /\
  CircuitBreaker.cooldownMs cb = CircuitBreaker.cooldownMs (CircuitBreaker.new opts) /\
  (CircuitBreaker.failureCount cb = 0%Z -> CircuitBreaker.state cb = CLOSED) /\
  (CircuitBreaker.state cb <> CLOSED ->
   exists t, In (OnFailure t) cs /\
             CircuitBreaker.nextTryAt cb = (t + CircuitBreaker.cooldownMs cb)%Z).

(** The strategy calls made by a list of calls run one after another. *)
Fixpoint total_searches (cs : list Call) (m : RAGManager.t) : nat :=
  match cs with
  | [] => 0
  | c :: rest =>
      match c with
      | Retrieve w query hints => RAGManager.searches (RAGManager.retrieve w query hints m)
      | ClearCache => 0
      end + total_searches rest (call m c)
  end.

(** The canTry() check of a retrieve call comes before [deadline]. *)
Definition checked_before (deadline : Z) (c : Call) : Prop :=
  match c with
  | Retrieve w _ _ => (now_canTry w < deadline)%Z
  | ClearCache => True
  end.

(** The members of SerializeJSONObject, as the body of [JSON.stringify]
    computes them. *)
Definition members_of : list (string * JsValue) -> Js (list string) :=
  fix members (l : list (string * JsValue)) : Js (list string) :=
    match l with
    | [] => inr []
    | (P, x) :: l' =>
        match JSON.SerializeJSONProperty x with
        | inl e => inl e
        | inr strP =>
            match members l' with
            | inl e => inl e
            | inr partial =>
                inr (match strP with
                     | None => partial
                     | Some str =>
                         (JSON.QuoteJSONString P +:+ ":" +:+ str) :: partial
                     end)
            end
        end
    end.

(** Is the property set to something other than [undefined]? *)
Definition defined_prop (kv : string * JsValue) : bool :=
  match snd kv with
  | JsUndefined => false
  | _ => true
  end.

(** The store is configured, the API key is the empty string. *)
Definition world_without_api_key : World :=
  {| POSTGRES_URL := Some "postgres://db/app";
     OPENAI_API_KEY := Some "";
     OPENAI_EMBEDDING_MODEL := None;
     RAG_PROVIDER := Some "vectorDB";
     now_retrieve := 0;
     now_canTry := 0;
     now_onFailure := 0;
     postgres := fun _ => inr ();
     fetch_embeddings := fun _ _ _ => inr embedding_reply;
     sql_like := fun _ => store_up;
     sql_nearest := fun _ => store_up;
     sql_end := inr () |}.

(** * The callers *)

(** ** lib/jobs/reindex-memories.ts *)

(** A row of the SELECT of the job. *)
Record MemoryRow : Type := {
  mem_id : JsValue;
  mem_content : JsValue
}.

(** The world of one run of the job: the process environment and the
    embedding service as in [World], the completion of the SELECT, of the
    UPDATE of a row (by its id and the embedding written) and of
    [embedText(undefined)], which the job calls when the content of a row
    serialises to [undefined]. *)
Record JobWorld : Type := {
  job_env : World;
  select_unembedded : Js (list MemoryRow);
  update_embedding : JsValue -> list JsValue -> Js unit;
  embed_undefined : Js (list JsValue)
}.

(** What the job writes: [console.error("Embed fail for", r.id, e)],
    [console.log] of the summary, and [console.error(e)] of the handler of
    a rejected [main]. *)
Inductive JobLine : Type :=
| EmbedFail (id : JsValue) (e : Exn)
| Summary (line : string)
| Fatal (e : Exn).

(** [typeof r.content === "string" ? r.content : JSON.stringify(r.content)] *)
Definition text_of (r : MemoryRow) : Js (option string) :=
  match mem_content r with
  | JsString s => mret (Some s)
  | v => JSON.stringify v
  end.

(** The body of the inner try: embed the text, write the embedding. *)
Definition reindex_row (jw : JobWorld) (r : MemoryRow) (text : option string) : Js unit :=
  emb ← match text with
        | Some t => embedText (job_env jw) t None (DEFAULT_MODEL (job_env jw))
        | None => embed_undefined jw
        end;
  update_embedding jw (mem_id r) emb.

(** The for loop, with the counters [ok] and [fail] as they stand. *)
Fixpoint reindex_rows (jw : JobWorld) (rows : list MemoryRow) (ok fail : nat)
    : list JobLine * Js (nat * nat) :=
  match rows with
  | [] => ([], inr (ok, fail))
  | r :: rest =>
      match text_of r with
      | inl e => ([], inl e)
      | inr text =>
          match reindex_row jw r text with
          | inr _ => reindex_rows jw rest (S ok) fail
          | inl e =>
              let '(lines, c) := reindex_rows jw rest ok (S fail) in
              (EmbedFail (mem_id r) e :: lines, c)
          end
      end
  end.

(** [JSON.stringify({ updated: ok, failed: fail })] *)
Definition summary_line (ok fail : nat) : string :=
  match JSON.stringify (JsObject [("updated", JsNumber (Z.of_nat ok));
                                  ("failed", JsNumber (Z.of_nat fail))]) with
  | inr (Some line) => line
  | _ => "undefined"
  end.

Definition reindex_main (jw : JobWorld) : list JobLine * Js unit :=
  match truthy_string (POSTGRES_URL (job_env jw)) with
  | None => ([], throw (Error "POSTGRES_URL is not set"))
  | Some url =>
      match postgres (job_env jw) url with
      | inl e => ([], inl e)
      | inr _ =>
          let '(lines, body) :=
            match select_unembedded jw with
            | inl e => ([], inl e)
            | inr rows =>
                match reindex_rows jw rows 0 0 with
                | (lines, inl e) => (lines, inl e)
                | (lines, inr (ok, fail)) =>
                    ((lines ++ [Summary (summary_line ok fail)])%list, inr ())
                end
            end in
          (lines, try_finally body (sql_end (job_env jw)))
      end
  end.

(** [main().catch((e) => { console.error(e); process.exit(1); })]: the
    lines written and the exit code the script asks for, if any. *)
Definition reindex_script (jw : JobWorld) : list JobLine * option Z :=
  match reindex_main jw with
  | (lines, inl e) => ((lines ++ [Fatal e])%list, Some 1%Z)
  | (lines, inr _) => (lines, None)
  end.



Definition sample_job (rows : list MemoryRow) : JobWorld :=
  {| job_env := world_at 0 store_up;
     select_unembedded := inr rows;
     update_embedding := fun id _ =>
       match id with
       | JsNumber 2 => inl (Error "deadlock detected")
       | _ => inr ()
       end;
     embed_undefined := inl (Error "OpenAI embeddings failed: 400 ") |}.

Definition sample_rows : list MemoryRow :=
  [ {| mem_id := JsNumber 1; mem_content := JsString "dark theme preference" |};
    {| mem_id := JsNumber 2; mem_content := JsObject [("note", JsString "invoice")] |};
    {| mem_id := JsNumber 3; mem_content := JsNull |} ].

Definition job_service_down (rows : list MemoryRow) : JobWorld :=
  {| job_env := world_without_api_key;
     select_unembedded := inr rows;
     update_embedding := fun _ _ => inl (Error "connection terminated");
     embed_undefined := inl (Error "OPENAI_API_KEY is required to run embeddings") |}.

(** ** app/(chat)/api/memory/rag/route.ts *)

(** The bodies the handler sends: an error object with its [issues] or
    [message] field, or a retrieval result. *)
Inductive ResponseBody : Type :=
| ErrorBody (error : string) (issues : option JsValue) (message : option string)
| ResultBody (r : RAGResult).

Record HttpResponse : Type := {
  http_status : Z;
  http_body : ResponseBody
}.

(** The world of one request: the world of the retrieval layer, and the
    collaborators of the handler, which are not part of the sources:
    [auth()] (whether [session?.user] is truthy), [request.json()],
    [ragRequestSchema.safeParse] (the formatted issues, or the parsed query
    and hints), the metrics collector, and the clock. *)
Record RouteWorld : Type := {
  route_env : World;
  session_user : Js bool;
  request_json : Js JsValue;
  safeParse : JsValue -> JsValue + (string * option Hints);
  getMetricsCollector : Js unit;
  metrics_increment : string -> Js unit;
  metrics_recordLatency : string -> Z -> Js unit;
  route_now : Z
}.

Definition metadata_has_bigint (md : option Metadata) : bool :=
  match md with
  | Some md => has_bigint (md_key md) || has_bigint (md_layer md)
               || has_bigint (md_updatedAt md)
  | None => false
  end.

Definition body_has_bigint (body : ResponseBody) : bool :=
  match body with
  | ErrorBody _ issues _ => from_option has_bigint false issues
  | ResultBody r => existsb (fun s => metadata_has_bigint (metadata s)) (snippets r)
  end.

(** [NextResponse.json(body, { status })] serialises the body at once. *)
Definition NextResponse_json (body : ResponseBody) (status : Z) : Js HttpResponse :=
  if body_has_bigint body
  then throw (TypeError "Do not know how to serialize a BigInt")
  else mret {| http_status := status; http_body := body |}.

(** [String(e?.message || e)] *)
Definition exn_message (e : Exn) : string :=
  match e with
  | Error EmptyString => "Error"
  | TypeError EmptyString => "TypeError"
  | Error message | TypeError message => message
  end.

(** [result.degraded] as a condition *)
Definition is_degraded (r : RAGResult) : bool :=
  match degraded r with
  | Some true => true
  | _ => false
  end.

(** The try block of the handler. *)
Definition rag_attempt (rw : RouteWorld) (query : string) (hints : option Hints)
    : Js HttpResponse :=
  let ragManager := RAGManager.new (route_env rw) None in
  _ ← getMetricsCollector rw;
  _ ← metrics_increment rw "rag_trigger_count";
  let startTime := route_now rw in
  result ← RAGManager.settled (RAGManager.retrieve (route_env rw) query hints ragManager);
  _ ← metrics_recordLatency rw "rag_latency_ms" startTime;
  _ ← (if is_degraded result then metrics_increment rw "rag_fallback_count" else mret ());
  NextResponse_json (ResultBody result) 200.

(** The catch block. *)
Definition rag_failed (rw : RouteWorld) (e : Exn) : Js HttpResponse :=
  _ ← getMetricsCollector rw;
  _ ← metrics_increment rw "rag_error_count";
  NextResponse_json (ErrorBody "rag_failed" None (Some (exn_message e))) 500.

(** One request: the completion of the handler and how many times the
    strategy was called on its behalf. *)
Record RouteRun : Type := {
  response : Js HttpResponse;
  strategy_calls : nat
}.

Definition POST (rw : RouteWorld) : RouteRun :=
  match session_user rw with
  | inl e => {| response := inl e; strategy_calls := 0 |}
  | inr false =>
      {| response := NextResponse_json (ErrorBody "Unauthorized" None None) 401;
         strategy_calls := 0 |}
  | inr true =>
      let json := match request_json rw with
                  | inl _ => JsObject []
                  | inr v => v
                  end in
      match safeParse rw json with
      | inl issues =>
          {| response := NextResponse_json (ErrorBody "bad_request" (Some issues) None) 400;
             strategy_calls := 0 |}
      | inr (EmptyString, _) =>
          {| response := NextResponse_json (ErrorBody "missing_query" None None) 400;
             strategy_calls := 0 |}
      | inr (query, hints) =>
          {| response := try_catch (rag_attempt rw query hints) (rag_failed rw);
             strategy_calls :=
               match getMetricsCollector rw, metrics_increment rw "rag_trigger_count" with
               | inr _, inr _ =>
                   RAGManager.searches
                     (RAGManager.retrieve (route_env rw) query hints
                        (RAGManager.new (route_env rw) None))
               | _, _ => 0%nat
               end |}
      end
  end.

(** [parsed]: what [safeParse] makes of the body, [{}] standing in for a
    body that is not JSON. *)
Definition parsed (rw : RouteWorld) : JsValue + (string * option Hints) :=
  safeParse rw (match request_json rw with
                | inl _ => JsObject []
                | inr v => v
                end).

(** A request by a signed-in user whose body is the query and hints given,
    in the world [env], with a metrics collector that never fails. *)
Definition sample_request (env : World) (query : string) (hints : option Hints)
    : RouteWorld :=
  {| route_env := env;
     session_user := inr true;
     request_json := inr (JsObject [("query", JsString query)]);
     safeParse := fun _ => inr (query, hints);
     getMetricsCollector := inr ();
     metrics_increment := fun _ => inr ();
     metrics_recordLatency := fun _ _ => inr ();
     route_now := now_retrieve env |}.

(** * Properties *)

(** ** The circuit breaker *)

Section Breaker.

Import CircuitBreaker.

Lemma new_tripped_at_threshold opts : tripped_at_threshold (new opts).
Proof. intros H. now contradict H. Qed.

Lemma onSuccess_tripped_at_threshold cb : tripped_at_threshold (onSuccess cb).
Proof. intros H. now contradict H. Qed.

Lemma onFailure_tripped_at_threshold now cb :
  tripped_at_threshold cb -> tripped_at_threshold (onFailure now cb).
Proof.
  unfold tripped_at_threshold, onFailure. intros Hcb.
  destruct (Z.leb_spec (threshold cb) (failureCount cb + 1)) as [Hle|Hlt];
    simpl; intros Hs.
  - assumption.
  - specialize (Hcb Hs). lia.
Qed.

Lemma canTry_tripped_at_threshold now cb :
  tripped_at_threshold cb -> tripped_at_threshold (snd (canTry now cb)).
Proof.
  unfold tripped_at_threshold, canTry. intros Hcb.
  destruct (bool_decide_reflect (state cb = OPEN)) as [Hopen|Hother]; simpl.
  - destruct (nextTryAt cb <=? now)%Z; simpl; intros _;
      apply Hcb; rewrite Hopen; discriminate.
  - exact Hcb.
Qed.

Lemma breaker_call_tripped_at_threshold c cb :
  tripped_at_threshold cb -> tripped_at_threshold (breaker_call cb c).
Proof.
  destruct c; simpl.
  - intros _. apply onSuccess_tripped_at_threshold.
  - apply onFailure_tripped_at_threshold.
  - apply canTry_tripped_at_threshold.
Qed.

Lemma breaker_calls_tripped_at_threshold cs : forall cb,
  tripped_at_threshold cb -> tripped_at_threshold (breaker_calls cs cb).
Proof.
  induction cs as [|c cs IH]; intros cb Hcb; simpl.
  - exact Hcb.
  - apply IH, breaker_call_tripped_at_threshold, Hcb.
Qed.

Lemma onFailure_at_threshold now cb :
  (threshold cb <= failureCount cb)%Z ->
  onFailure now cb = mk OPEN (failureCount cb + 1) (threshold cb) (cooldownMs cb)
                        (now + cooldownMs cb).
Proof.
  intros Hge. unfold onFailure.
  destruct (Z.leb_spec (threshold cb) (failureCount cb + 1)); [reflexivity | lia].
Qed.

Lemma canTry_half_open now cb :
  state cb = HALF_OPEN -> canTry now cb = (true, cb).
Proof.
  intros Hs. unfold canTry. rewrite Hs. reflexivity.
Qed.

Lemma canTry_closed now cb :
  state cb = CLOSED -> canTry now cb = (true, cb).
Proof.
  intros Hs. unfold canTry. rewrite Hs. reflexivity.
Qed.

Lemma canTry_open_cooling now cb :
  state cb = OPEN -> (now < nextTryAt cb)%Z -> canTry now cb = (false, cb).
Proof.
  intros Hs Hlt. unfold canTry. rewrite Hs. simpl.
  destruct (Z.leb_spec (nextTryAt cb) now); [lia | reflexivity].
Qed.

Lemma canTry_open_cooled now cb :
  state cb = OPEN -> (nextTryAt cb <= now)%Z ->
  canTry now cb = (true, set_state HALF_OPEN cb).
Proof.
  intros Hs Hle. unfold canTry. rewrite Hs. simpl.
  destruct (Z.leb_spec (nextTryAt cb) now); [reflexivity | lia].
Qed.

(** A refused call leaves the breaker as it was, OPEN and still cooling. *)
Lemma canTry_false now cb cb' :
  canTry now cb = (false, cb') ->
  cb' = cb /\ state cb = OPEN /\ (now < nextTryAt cb)%Z.
Proof.
  unfold canTry.
  destruct (bool_decide_reflect (state cb = OPEN)) as [Hopen|Hother]; simpl.
  - destruct (Z.leb_spec (nextTryAt cb) now); intros [= <-]; auto.
  - intros [=].
Qed.

End Breaker.

(** C10. In every breaker state reached from a new breaker by calls of
    onSuccess, onFailure and canTry, a state of OPEN or HALF_OPEN comes with
    a failure count at or above the threshold; hence one onFailure in
    HALF_OPEN re-opens the breaker, with nextTryAt set to the time of that
    failure plus the cooldown. *)
Theorem breaker_tripped_count_reaches_threshold
    (opts : option CircuitBreaker.Opts) (cs : list BreakerCall) :
  let cb := breaker_calls cs (CircuitBreaker.new opts) in
  (CircuitBreaker.state cb = OPEN \/ CircuitBreaker.state cb = HALF_OPEN ->
   (CircuitBreaker.threshold cb <= CircuitBreaker.failureCount cb)%Z) /\
  (CircuitBreaker.state cb = HALF_OPEN ->
   forall now,
     CircuitBreaker.state (CircuitBreaker.onFailure now cb) = OPEN /\
     CircuitBreaker.nextTryAt (CircuitBreaker.onFailure now cb)
     = (now + CircuitBreaker.cooldownMs cb)%Z).
Proof.
  intros cb.
  assert (Hinv : tripped_at_threshold cb)
    by apply breaker_calls_tripped_at_threshold, new_tripped_at_threshold.
  split.
  - intros [H|H]; apply Hinv; rewrite H; discriminate.
  - intros H now.
    rewrite onFailure_at_threshold; [split; reflexivity |].
    apply Hinv. rewrite H. discriminate.
Qed.

(** Three failures, the cooldown, one probe: HALF_OPEN with a count of 3,
    and the next failure re-opens until 11000. *)
Lemma breaker_tripped_count_reaches_threshold_witness :
  let cb := breaker_calls [OnFailure 0; OnFailure 1; OnFailure 2; CanTry 6000]
                          (CircuitBreaker.new None) in
  CircuitBreaker.state cb = HALF_OPEN /\
  (3 <= CircuitBreaker.failureCount cb)%Z /\
  CircuitBreaker.state (CircuitBreaker.onFailure 6000 cb) = OPEN /\
  CircuitBreaker.nextTryAt (CircuitBreaker.onFailure 6000 cb) = 11000%Z.
Proof.
  pose proof (breaker_tripped_count_reaches_threshold None
                [OnFailure 0; OnFailure 1; OnFailure 2; CanTry 6000]) as [Hcount Hreopen].
  split; [reflexivity |].
  split; [apply Hcount; right; reflexivity |].
  apply (Hreopen eq_refl 6000%Z).
Defined.

(** C6 (amended). When the breaker is OPEN and the clock has reached
    nextTryAt, the next canTry() moves it to HALF_OPEN and returns true; from
    then on every canTry(), at whatever time, returns true again and leaves
    the breaker HALF_OPEN, until onSuccess or onFailure records an outcome. *)
Theorem canTry_after_cooldown_admits_every_probe (cb : CircuitBreaker.t) (now : Z) :
  CircuitBreaker.state cb = OPEN ->
  (CircuitBreaker.nextTryAt cb <= now)%Z ->
  CircuitBreaker.canTry now cb = (true, CircuitBreaker.set_state HALF_OPEN cb) /\
  forall later,
    CircuitBreaker.canTry later (CircuitBreaker.set_state HALF_OPEN cb)
    = (true, CircuitBreaker.set_state HALF_OPEN cb).
Proof.
  intros Hopen Hcooled. split.
  - apply canTry_open_cooled; assumption.
  - intros later. apply canTry_half_open. reflexivity.
Qed.

Lemma canTry_after_cooldown_admits_every_probe_witness :
  let opened := breaker_calls [OnFailure 0; OnFailure 0; OnFailure 0]
                              (CircuitBreaker.new None) in
  CircuitBreaker.canTry 5000 opened
  = (true, CircuitBreaker.set_state HALF_OPEN opened) /\
  forall later,
    CircuitBreaker.canTry later (CircuitBreaker.set_state HALF_OPEN opened)
    = (true, CircuitBreaker.set_state HALF_OPEN opened).
Proof.
  apply (canTry_after_cooldown_admits_every_probe
           (breaker_calls [OnFailure 0; OnFailure 0; OnFailure 0]
                          (CircuitBreaker.new None)) 5000).
  - reflexivity.
  - simpl. lia.
Defined.

(** C6 as stated fails: after three failures at time 0 the default breaker
    is OPEN until 5000; the check at 5000 returns true and moves it to
    HALF_OPEN, and a second check, with no outcome recorded in between,
    does not return false. *)
Lemma canTry_half_open_second_check_true :
  let opened := breaker_calls [OnFailure 0; OnFailure 0; OnFailure 0]
                              (CircuitBreaker.new None) in
  let probing := snd (CircuitBreaker.canTry 5000 opened) in
  CircuitBreaker.state opened = OPEN /\
  CircuitBreaker.nextTryAt opened = 5000%Z /\
  fst (CircuitBreaker.canTry 5000 opened) = true /\
  CircuitBreaker.state probing = HALF_OPEN /\
  ~ fst (CircuitBreaker.canTry 5001 probing) = false.
Proof.
  repeat split; discriminate.
Qed.

(** ** Binary64 rounding *)

Lemma pow2_pos e : (0 < pow2 e)%Q.
Proof. apply Qpower_0_lt. reflexivity. Qed.

Lemma pow2_le a b : a <= b -> (pow2 a <= pow2 b)%Q.
Proof. intros H. apply Qpower_le_compat_l; [exact H | discriminate]. Qed.

Lemma pow2_lt a b : a < b -> (pow2 a < pow2 b)%Q.
Proof. intros H. apply Qpower_lt_compat_l; [exact H | reflexivity]. Qed.

Lemma pow2_minus a b : (pow2 (a - b) == pow2 a / pow2 b)%Q.
Proof. apply Qpower_minus. discriminate. Qed.

Lemma pow2_inject n : 0 <= n -> (pow2 n == inject_Z (2 ^ n))%Q.
Proof. intros H. unfold pow2. rewrite Zpower_Qpower by exact H. reflexivity. Qed.

Lemma round_half_even_bounds x :
  Qfloor x <= round_half_even x <= Qfloor x + 1.
Proof.
  unfold round_half_even.
  destruct (Qcompare _ _); [destruct (Z.even _) | |]; lia.
Qed.

(** An integer rounds to itself. *)
Lemma round_half_even_Z k : round_half_even (inject_Z k) = k.
Proof.
  unfold round_half_even. rewrite Qfloor_Z.
  replace (Qcompare (inject_Z k - inject_Z k) (1 # 2)) with Lt; [reflexivity |].
  symmetry. apply Qlt_alt.
  setoid_replace (inject_Z k - inject_Z k)%Q with 0%Q using relation Qeq by ring. reflexivity.
Qed.

(** Rounding to the nearest integer keeps the order. *)
Lemma round_half_even_mono x y :
  (x <= y)%Q -> round_half_even x <= round_half_even y.
Proof.
  intros Hxy.
  pose proof (Qfloor_resp_le _ _ Hxy) as Hf.
  pose proof (round_half_even_bounds x) as Hx.
  pose proof (round_half_even_bounds y) as Hy.
  destruct (Z.eq_dec (Qfloor x) (Qfloor y)) as [E | NE]; [| lia].
  clear Hf Hx Hy. unfold round_half_even. rewrite <- E.
  assert (Hfr : (x - inject_Z (Qfloor x) <= y - inject_Z (Qfloor x))%Q).
  { apply Qplus_le_compat; [exact Hxy | apply Qle_refl]. }
  destruct (Qcompare (x - inject_Z (Qfloor x)) (1 # 2)) eqn:Cx;
    destruct (Qcompare (y - inject_Z (Qfloor x)) (1 # 2)) eqn:Cy;
    try match goal with |- context [Z.even ?f] => destruct (Z.even f) end;
    try lia; exfalso.
  - apply Qeq_alt in Cx. apply Qlt_alt in Cy. rewrite Cx in Hfr.
    exact (Qlt_irrefl _ (Qle_lt_trans _ _ _ Hfr Cy)).
  - apply Qgt_alt in Cx. apply Qeq_alt in Cy. rewrite Cy in Hfr.
    exact (Qlt_irrefl _ (Qle_lt_trans _ _ _ Hfr Cx)).
  - apply Qgt_alt in Cx. apply Qlt_alt in Cy.
    exact (Qlt_irrefl _ (Qlt_trans _ _ _ Cx (Qle_lt_trans _ _ _ Hfr Cy))).
Qed.

Lemma log2_bounds n : 0 < n -> (pow2 (Z.log2 n) <= inject_Z n < pow2 (Z.log2 n + 1))%Q.
Proof.
  intros Hn. pose proof (Z.log2_spec n Hn) as [Hlo Hhi].
  pose proof (Z.log2_nonneg n) as H0.
  rewrite !pow2_inject by lia. rewrite <- Zle_Qle, <- Zlt_Qlt.
  replace (Z.log2 n + 1) with (Z.succ (Z.log2 n)) by lia. split; assumption.
Qed.

(** [binade] is the exponent of the power of two at or below [x]. *)
Lemma binade_spec x :
  (0 < x)%Q -> (pow2 (binade x) <= x < pow2 (binade x + 1))%Q.
Proof.
  intros Hx. destruct x as [n d].
  assert (Hn : 0 < n).
  { unfold Qlt in Hx. simpl in Hx. lia. }
  destruct (log2_bounds n Hn) as [Hnlo Hnhi].
  destruct (log2_bounds (Zpos d) eq_refl) as [Hdlo Hdhi].
  assert (Hd0 : (0 < inject_Z (Zpos d))%Q) by reflexivity.
  unfold binade. cbn [Qnum Qden].
  set (a := Z.log2 n) in *. set (b := Z.log2 (Zpos d)) in *.
  destruct (Qle_bool (pow2 (a - b)) (n # d)) eqn:E.
  - apply Qle_bool_iff in E. split; [exact E |].
    rewrite (Qmake_Qdiv n d).
    replace (a - b + 1) with (a + 1 - b) by lia. rewrite pow2_minus.
    apply Qlt_shift_div_r; [exact Hd0 |].
    apply Qlt_le_trans with (1 := Hnhi).
    unfold Qdiv. rewrite <- Qmult_assoc.
    rewrite <- (Qmult_1_r (pow2 (a + 1))) at 1.
    apply Qmult_le_l; [apply pow2_pos |].
    rewrite Qmult_comm.
    apply Qle_shift_div_l; [apply pow2_pos |].
    rewrite Qmult_1_l. exact Hdlo.
  - assert (E' : (n # d < pow2 (a - b))%Q).
    { apply Qnot_le_lt. intros H. apply Qle_bool_iff in H. congruence. }
    replace (a - b - 1 + 1) with (a - b) by lia. split; [| exact E'].
    rewrite (Qmake_Qdiv n d).
    replace (a - b - 1) with (a - (b + 1)) by lia. rewrite pow2_minus.
    apply Qle_shift_div_l; [exact Hd0 |].
    apply Qle_trans with (2 := Hnlo).
    unfold Qdiv. rewrite <- Qmult_assoc.
    rewrite <- (Qmult_1_r (pow2 a)) at 2.
    apply Qmult_le_l; [apply pow2_pos |].
    rewrite Qmult_comm.
    apply Qle_shift_div_r; [apply pow2_pos |].
    rewrite Qmult_1_l. apply Qlt_le_weak. exact Hdhi.
Qed.

Lemma binade_mono x y :
  (0 < x)%Q -> (x <= y)%Q -> binade x <= binade y.
Proof.
  intros Hx Hxy.
  assert (Hy : (0 < y)%Q) by (eapply Qlt_le_trans; eassumption).
  destruct (binade_spec x Hx) as [Hlo _].
  destruct (binade_spec y Hy) as [_ Hhi].
  assert (H : (pow2 (binade x) < pow2 (binade y + 1))%Q).
  { eapply Qle_lt_trans; [exact Hlo |]. eapply Qle_lt_trans; eassumption. }
  apply Qpower_lt_compat_l_inv in H; [lia | reflexivity].
Qed.

Lemma scaled_le x y p : (x <= y)%Q -> (x / pow2 p <= y / pow2 p)%Q.
Proof.
  intros H. apply Qle_shift_div_l; [apply pow2_pos |].
  unfold Qdiv. rewrite <- Qmult_assoc, (Qmult_comm (/ pow2 p)), Qmult_inv_r, Qmult_1_r.
  - exact H.
  - intros E. pose proof (pow2_pos p) as P. rewrite E in P. discriminate.
Qed.

(** Rounding to the nearest double keeps the order: within one binade
    the scaled values round in order, and across binades the power of two
    between them is a double. *)
Lemma round_magnitude_mono x y :
  (0 < x)%Q -> (x <= y)%Q -> (round_magnitude x <= round_magnitude y)%Q.
Proof.
  intros Hx Hxy.
  assert (Hy : (0 < y)%Q) by (eapply Qlt_le_trans; eassumption).
  pose proof (binade_mono x y Hx Hxy) as Hb.
  unfold round_magnitude.
  set (px := Z.max (binade x) (-1022) - 52).
  set (py := Z.max (binade y) (-1022) - 52).
  destruct (Z.eq_dec px py) as [E | NE].
  - rewrite <- E. apply Qmult_le_compat_r; [| apply Qlt_le_weak, pow2_pos].
    rewrite <- Zle_Qle. apply round_half_even_mono, scaled_le, Hxy.
  - assert (Hpy : py = binade y - 52) by lia.
    assert (Hlt : binade x + 1 <= binade y) by lia.
    assert (Hpx : px + 53 <= binade y) by lia.
    destruct (binade_spec x Hx) as [_ Hxhi].
    destruct (binade_spec y Hy) as [Hylo _].
    apply Qle_trans with (pow2 (binade y)).
    + apply Qle_trans
        with (inject_Z (2 ^ (binade y - px)) * pow2 px)%Q.
      * apply Qmult_le_compat_r; [| apply Qlt_le_weak, pow2_pos].
        rewrite <- Zle_Qle.
        rewrite <- (round_half_even_Z (2 ^ (binade y - px))).
        apply round_half_even_mono.
        rewrite <- pow2_inject by lia. rewrite pow2_minus.
        apply scaled_le. apply Qlt_le_weak.
        eapply Qlt_le_trans; [exact Hxhi | apply pow2_le; lia].
      * rewrite <- pow2_inject by lia. rewrite pow2_minus.
        unfold Qdiv. rewrite <- Qmult_assoc, (Qmult_comm (/ pow2 px)), Qmult_inv_r, Qmult_1_r.
        -- apply Qle_refl.
        -- intros E. pose proof (pow2_pos px) as P. rewrite E in P. discriminate.
    + apply Qle_trans
        with (inject_Z (2 ^ (binade y - py)) * pow2 py)%Q.
      * rewrite <- pow2_inject by lia. rewrite pow2_minus.
        unfold Qdiv. rewrite <- Qmult_assoc, (Qmult_comm (/ pow2 py)), Qmult_inv_r, Qmult_1_r.
        -- apply Qle_refl.
        -- intros E. pose proof (pow2_pos py) as P. rewrite E in P. discriminate.
      * apply Qmult_le_compat_r; [| apply Qlt_le_weak, pow2_pos].
        rewrite <- Zle_Qle.
        rewrite <- (round_half_even_Z (2 ^ (binade y - py))).
        apply round_half_even_mono.
        rewrite <- pow2_inject by lia. rewrite pow2_minus.
        apply scaled_le. exact Hylo.
Qed.

Lemma round_magnitude_nonneg x : (0 < x)%Q -> (0 <= round_magnitude x)%Q.
Proof.
  intros Hx. unfold round_magnitude.
  apply Qmult_le_0_compat; [| apply Qlt_le_weak, pow2_pos].
  change 0%Q with (inject_Z 0). rewrite <- Zle_Qle.
  rewrite <- (round_half_even_Z 0). apply round_half_even_mono.
  apply Qle_shift_div_l; [apply pow2_pos |].
  rewrite Qmult_0_l. apply Qlt_le_weak, Hx.
Qed.

Lemma round_double_mono x y :
  (x <= y)%Q -> (round_double x <= round_double y)%Q.
Proof.
  intros Hxy. unfold round_double.
  destruct (Qcompare_spec x 0) as [Cx | Cx | Cx];
    destruct (Qcompare_spec y 0) as [Cy | Cy | Cy].
  - apply Qle_refl.
  - exfalso. rewrite Cx in Hxy. exact (Qlt_irrefl _ (Qle_lt_trans _ _ _ Hxy Cy)).
  - apply round_magnitude_nonneg, Cy.
  - apply (Qopp_le_compat 0). apply round_magnitude_nonneg.
    apply (Qopp_lt_compat x 0), Cx.
  - apply Qopp_le_compat. apply round_magnitude_mono.
    + apply (Qopp_lt_compat y 0), Cy.
    + apply Qopp_le_compat, Hxy.
  - apply Qle_trans with 0%Q.
    + apply (Qopp_le_compat 0). apply round_magnitude_nonneg.
      apply (Qopp_lt_compat x 0), Cx.
    + apply round_magnitude_nonneg, Cy.
  - exfalso. rewrite Cy in Hxy. exact (Qlt_irrefl _ (Qlt_le_trans _ _ _ Cx Hxy)).
  - exfalso. exact (Qlt_irrefl _ (Qlt_trans _ _ _ Cy (Qlt_le_trans _ _ _ Cx Hxy))).
  - apply round_magnitude_mono; assumption.
Qed.

(** Equal rationals round to the same double. *)
Lemma round_double_eq x y : (x == y)%Q -> (round_double x == round_double y)%Q.
Proof.
  intros E. apply Qle_antisym; apply round_double_mono; rewrite E; apply Qle_refl.
Qed.

Lemma round_double_0 : round_double 0 = 0%Q.
Proof. reflexivity. Qed.


Lemma round_double_nonpos x : (x <= 0)%Q -> (round_double x <= 0)%Q.
Proof. intros H. exact (round_double_mono x 0 H). Qed.






(** ** The drivers *)

(** Case analysis on every completion a driver body inspects. *)
Ltac js_cases :=
  unfold try_finally, try_catch, mbind, mret, Js_bind, Js_ret, throw in *;
  repeat (case_match; simplify_eq/=).

Lemma PgIlikeDriver_search_result w query hints res :
  PgIlikeDriver.search w query hints = inr res -> driver_result res.
Proof.
  unfold PgIlikeDriver.search, driver_result. intros Hres.
  js_cases; auto.
Qed.

Lemma VectorDbDriver_search_result w query hints res :
  VectorDbDriver.search w query hints = inr res -> driver_result res.
Proof.
  unfold VectorDbDriver.search, driver_result. intros Hres.
  js_cases; auto.
Qed.

Lemma driver_search_result d w query hints res :
  driver_search d w query hints = inr res -> driver_result res.
Proof.
  destruct d; simpl.
  - apply PgIlikeDriver_search_result.
  - apply VectorDbDriver_search_result.
Qed.

(** What the try and catch of VectorDbDriver.search cover: when the SQL
    client is built and closed without error, search returns a result, and
    whenever the embedding call or the similarity query fails, that result
    has ok = false and no snippets. *)
Lemma VectorDbDriver_search_fails_closed
    (w : World) (query : string) (hints : option Hints) :
  (forall url, truthy_string (POSTGRES_URL w) = Some url -> postgres w url = inr ()) ->
  sql_end w = inr () ->
  exists res,
    VectorDbDriver.search w query hints = inr res /\
    ((exists e, query_embedding w query = inl e) \/
     (exists qvec e, query_embedding w query = inr qvec /\ sql_nearest w qvec = inl e) ->
     ok res = false /\ snippets res = []).
Proof.
  intros Hclient Hend. unfold VectorDbDriver.search, query_embedding.
  destruct (truthy_string (POSTGRES_URL w)) as [url|] eqn:Hurl.
  - rewrite (Hclient url eq_refl), Hend. simpl.
    unfold try_finally, try_catch, mbind, mret, Js_bind, Js_ret.
    destruct (embedText w (or_empty query) None (DEFAULT_MODEL w)) as [e|qvec].
    { eexists. split; [reflexivity | intros _; split; reflexivity]. }
    destruct (sql_nearest w qvec) as [e|rows] eqn:Hrows.
    { eexists. split; [reflexivity | intros _; split; reflexivity]. }
    destruct (mapM VectorDbDriver.snippet_of rows) as [e|ss].
    { eexists. split; [reflexivity | intros _; split; reflexivity]. }
    eexists. split; [reflexivity |].
    intros [[e [=]] | (qvec' & e & [= <-] & Hfail)]. congruence.
  - eexists. split; [reflexivity | intros _; split; reflexivity].
Qed.

Lemma VectorDbDriver_search_fails_closed_witness :
  exists res,
    VectorDbDriver.search (world_at 0 store_down) "theme" None = inr res /\
    ((exists e, query_embedding (world_at 0 store_down) "theme" = inl e) \/
     (exists qvec e, query_embedding (world_at 0 store_down) "theme" = inr qvec /\
                     sql_nearest (world_at 0 store_down) qvec = inl e) ->
     ok res = false /\ snippets res = []).
Proof.
  apply (VectorDbDriver_search_fails_closed (world_at 0 store_down) "theme" None).
  - intros url _. reflexivity.
  - reflexivity.
Defined.

(** The only exceptions that leave VectorDbDriver.search are those of
    building the SQL client and of closing it. *)
Lemma VectorDbDriver_search_throws_client_errors_only w query hints e :
  VectorDbDriver.search w query hints = inl e ->
  (exists url, postgres w url = inl e) \/ sql_end w = inl e.
Proof.
  unfold VectorDbDriver.search. intros Hthrow.
  js_cases; eauto.
Qed.

(** VectorDbDriver.search throws exactly the error of building the SQL
    client, which happens before the try, and the error of closing it,
    which happens in the finally and so after the catch; whatever the
    embedding call and the similarity query did. *)
Lemma VectorDbDriver_search_throws_iff w query hints e :
  VectorDbDriver.search w query hints = inl e <->
  exists url,
    truthy_string (POSTGRES_URL w) = Some url /\
    (postgres w url = inl e \/ (postgres w url = inr () /\ sql_end w = inl e)).
Proof.
  unfold VectorDbDriver.search. split.
  - intros Hthrow.
    destruct (truthy_string (POSTGRES_URL w)) as [url|]; [| discriminate].
    exists url. split; [reflexivity |].
    destruct (postgres w url) as [e0|[]]; simpl in Hthrow; [left; congruence |].
    right. split; [reflexivity |].
    unfold try_finally in Hthrow.
    destruct (sql_end w) as [e1|[]]; [congruence |].
    js_cases.
  - intros (url & -> & [Hclient | [Hclient Hend]]); rewrite Hclient; simpl.
    + reflexivity.
    + unfold try_finally. rewrite Hend. reflexivity.
Qed.

(** C7 at failing inputs.  With a connection variable that holds no URL,
    building the SQL client throws before the try, and VectorDbDriver.search
    throws that TypeError to its caller.  With the embedding service
    unreachable, the catch produces the failure result, and the error of
    sql.end in the finally replaces it: search throws again.  Without the
    connection variable the same function returns the failure result. *)
Theorem VectorDbDriver_search_rejects_outside_try :
  VectorDbDriver.search world_bad_url "theme" None = inl (TypeError "Invalid URL") /\
  (exists e, query_embedding world_end_fails "theme" = inl e) /\
  VectorDbDriver.search world_end_fails "theme" None = inl (Error "connection closed") /\
  VectorDbDriver.search world_unconfigured "theme" None = inr failed_result.
Proof.
  split; [reflexivity |]. split; [eexists; reflexivity |].
  split; reflexivity.
Qed.

(** Without connection configuration the literal driver returns the
    failure result. *)
Lemma PgIlikeDriver_search_unconfigured w query hints :
  truthy_string (POSTGRES_URL w) = None ->
  PgIlikeDriver.search w query hints = inr failed_result.
Proof.
  intros Hurl. unfold PgIlikeDriver.search. rewrite Hurl. reflexivity.
Qed.

(** A failing store query is thrown on by PgIlikeDriver.search, whose try
    has a finally and no catch. *)
Lemma PgIlikeDriver_search_rethrows_query_error w query hints url e :
  truthy_string (POSTGRES_URL w) = Some url ->
  postgres w url = inr () ->
  sql_like w ("%" +:+ toLowerCase (or_empty query) +:+ "%") = inl e ->
  sql_end w = inr () ->
  PgIlikeDriver.search w query hints = inl e.
Proof.
  intros Hurl Hclient Hquery Hend. unfold PgIlikeDriver.search.
  rewrite Hurl, Hclient. simpl. rewrite Hquery, Hend. reflexivity.
Qed.

(** C9 at a failing input: the store refuses the connection; the literal
    driver rejects with the store's error, where the vector driver, on the
    same world, returns the failure result. *)
Theorem PgIlikeDriver_search_store_down_throws :
  PgIlikeDriver.search (world_at 0 store_down) "theme" None
  = inl (Error "connect ECONNREFUSED") /\
  VectorDbDriver.search (world_at 0 store_down) "theme" None = inr failed_result.
Proof.
  split; reflexivity.
Qed.

(** [rows.map] pairs every row with the snippet made from it. *)
Lemma mapM_snippets {A B} (f : A -> Js B) (l : list A) : forall (k : list B),
  mapM f l = inr k -> Forall2 (fun a b => f a = inr b) l k.
Proof.
  induction l as [|a l IH]; simpl; intros k Hk.
  - injection Hk as <-. constructor.
  - unfold mbind, Js_bind in Hk.
    destruct (f a) as [e|b] eqn:Hfa; [discriminate |].
    destruct (mapM f l) as [e|k'] eqn:Hl; [discriminate |].
    injection Hk as <-. constructor; [assumption | apply IH; reflexivity].
Qed.

Lemma distance_or_0_eq d : (VectorDbDriver.distance_or_0 (Some d) == d)%Q.
Proof.
  unfold VectorDbDriver.distance_or_0.
  destruct (Qeq_bool d 0) eqn:Hz; [| reflexivity].
  apply Qeq_bool_iff in Hz. symmetry. exact Hz.
Qed.

#[export] Instance round_double_proper : Proper (Qeq ==> Qeq) round_double.
Proof. intros x y E. apply round_double_eq, E. Qed.

Lemma confidence_of_distance d :
  (VectorDbDriver.confidence_of (Some d) == Qmax 0 (round_double (1 - d)))%Q.
Proof.
  unfold VectorDbDriver.confidence_of. rewrite distance_or_0_eq. reflexivity.
Qed.


(** NULL counts as distance 0, which is confidence 1. *)
Lemma confidence_of_null : (VectorDbDriver.confidence_of None == 1)%Q.
Proof. vm_compute. reflexivity. Qed.






(** [round_double] against the doubles of the processor: the difference
    [1 - d] computed in binary64 is [round_double] of the exact difference,
    at distances across the range: 0.1, 0.25, 0.3, 2 ^ -53 (a tie),
    3 * 2 ^ -54, 2 ^ -54, 2 ^ -60, 1 - 2 ^ -53, 1 + 2 ^ -52, 1.5, 2,
    123456.789, 2 ^ 996, -0.5, and the smallest positive double. *)
Example round_double_is_binary64_subtraction :
  forallb Binary64.sub_from_1_agrees
    [ Binary64.make 3602879701896397 (-55);
      Binary64.make 1 (-2);
      Binary64.make 5404319552844595 (-54);
      Binary64.make 1 (-53);
      Binary64.make 3 (-54);
      Binary64.make 1 (-54);
      Binary64.make 1 (-60);
      Binary64.make 9007199254740991 (-53);
      Binary64.make 4503599627370497 (-52);
      Binary64.make 3 (-1);
      Binary64.make 2 0;
      Binary64.make 8483885939586761 (-36);
      Binary64.make 1 996;
      Binary64.make (-1) (-1);
      Binary64.make 1 (-1074) ] = true.
Proof. vm_compute. reflexivity. Qed.

(** The same for products that land among the subnormal doubles and on
    zero, where the spacing no longer follows the binade. *)
Example round_double_is_binary64_product :
  forallb (fun ab => Binary64.mul_agrees (fst ab) (snd ab))
    [ (Binary64.make 3602879701896397 (-55), Binary64.make 3602879701896397 (-55));
      (Binary64.make 5 (-540), Binary64.make 7 (-535));
      (Binary64.make 4503599627370497 (-580), Binary64.make 4503599627370499 (-570));
      (Binary64.make 3 (-1000), Binary64.make 1 (-75));
      (Binary64.make 1 (-1000), Binary64.make 1 (-75));
      (Binary64.make (-3) (-1000), Binary64.make 5 (-76)) ] = true.
Proof. vm_compute. reflexivity. Qed.

(** ** The manager *)

Section Manager.

Import RAGManager.

(** The four ways through [retrieve] once the fingerprint is computed. *)

Lemma retrieve_fresh w query hints m cacheKey hit :
  key m query hints = inr cacheKey ->
  fresh m (now_retrieve w) (cache m !! cacheKey) = Some hit ->
  retrieve w query hints m = {| settled := inr hit; manager := m; searches := 0 |}.
Proof.
  intros Hkey Hfresh. unfold retrieve. rewrite Hkey, Hfresh. reflexivity.
Qed.

Lemma retrieve_refused w query hints m cacheKey cb' :
  key m query hints = inr cacheKey ->
  fresh m (now_retrieve w) (cache m !! cacheKey) = None ->
  CircuitBreaker.canTry (now_canTry w) (circuitBreaker m) = (false, cb') ->
  retrieve w query hints m
  = {| settled := inr (fallback (cache m !! cacheKey));
       manager := set_breaker cb' m; searches := 0 |}.
Proof.
  intros Hkey Hfresh Htry. unfold retrieve. rewrite Hkey, Hfresh, Htry. reflexivity.
Qed.

Lemma retrieve_success w query hints m cacheKey cb' res :
  key m query hints = inr cacheKey ->
  fresh m (now_retrieve w) (cache m !! cacheKey) = None ->
  CircuitBreaker.canTry (now_canTry w) (circuitBreaker m) = (true, cb') ->
  driver_search (driver m) w query hints = inr res ->
  ok res = true ->
  retrieve w query hints m
  = {| settled := inr res;
       manager :=
         set_cache (<[cacheKey := {| at_ := now_retrieve w; result := res |}]> (cache m))
                   (set_breaker (CircuitBreaker.onSuccess cb') m);
       searches := 1 |}.
Proof.
  intros Hkey Hfresh Htry Hres Hok. unfold retrieve.
  rewrite Hkey, Hfresh, Htry. simpl. rewrite Hres, Hok. reflexivity.
Qed.

Lemma retrieve_failure w query hints m cacheKey cb' :
  key m query hints = inr cacheKey ->
  fresh m (now_retrieve w) (cache m !! cacheKey) = None ->
  CircuitBreaker.canTry (now_canTry w) (circuitBreaker m) = (true, cb') ->
  search_failed (driver_search (driver m) w query hints) = true ->
  retrieve w query hints m
  = {| settled := inr (fallback (cache m !! cacheKey));
       manager := set_breaker (CircuitBreaker.onFailure (now_onFailure w) cb') m;
       searches := 1 |}.
Proof.
  intros Hkey Hfresh Htry Hfail. unfold retrieve.
  rewrite Hkey, Hfresh, Htry. simpl.
  destruct (driver_search (driver m) w query hints) as [e|res]; [reflexivity |].
  simpl in Hfail. apply negb_true_iff in Hfail. rewrite Hfail. reflexivity.
Qed.

(** Once the fingerprint is computed, [retrieve] settles with a result. *)
Lemma retrieve_resolves_when_keyed w query hints m cacheKey :
  key m query hints = inr cacheKey ->
  exists res, settled (retrieve w query hints m) = inr res.
Proof.
  intros Hkey. unfold retrieve. rewrite Hkey.
  repeat case_match; simpl; eauto.
Qed.

(** [retrieve] rejects exactly when computing the fingerprint throws,
    and then with that exception. *)
Lemma retrieve_rejects_iff_key_throws w query hints m e :
  settled (retrieve w query hints m) = inl e <-> key m query hints = inl e.
Proof.
  unfold retrieve. split.
  - repeat case_match; simpl; congruence.
  - intros ->. reflexivity.
Qed.

End Manager.

(** C2. When the fingerprint of (query, hints) has a cache entry younger
    than the TTL, retrieve returns the stored result itself, does not call
    the strategy, and leaves the manager, breaker included, as it was. *)
Theorem retrieve_fresh_entry_verbatim
    (w : World) (query : string) (hints : option Hints) (m : RAGManager.t)
    (cacheKey : string) (entry : CacheEntry) :
  RAGManager.key m query hints = inr cacheKey ->
  RAGManager.cache m !! cacheKey = Some entry ->
  (now_retrieve w - at_ entry < RAGManager.ttlMs m)%Z ->
  RAGManager.retrieve w query hints m
  = {| RAGManager.settled := inr (result entry);
       RAGManager.manager := m;
       RAGManager.searches := 0 |}.
Proof.
  intros Hkey Hentry Hyoung. apply (retrieve_fresh _ _ _ _ cacheKey); [exact Hkey |].
  rewrite Hentry. simpl.
  destruct (Z.ltb_spec (now_retrieve w - at_ entry) (RAGManager.ttlMs m));
    [reflexivity | lia].
Qed.

(** C3. When there is no fresh entry for the fingerprint and canTry()
    returns false, retrieve does not call the strategy and leaves the
    manager as it was; it returns the cached result of that fingerprint,
    however old, with degraded set to true, and the empty failure result
    when the fingerprint has no entry. *)
Theorem retrieve_refused_falls_back
    (w : World) (query : string) (hints : option Hints) (m : RAGManager.t)
    (cacheKey : string) (cb' : CircuitBreaker.t) :
  RAGManager.key m query hints = inr cacheKey ->
  RAGManager.fresh m (now_retrieve w) (RAGManager.cache m !! cacheKey) = None ->
  CircuitBreaker.canTry (now_canTry w) (RAGManager.circuitBreaker m) = (false, cb') ->
  RAGManager.searches (RAGManager.retrieve w query hints m) = 0%nat /\
  RAGManager.manager (RAGManager.retrieve w query hints m) = m /\
  RAGManager.settled (RAGManager.retrieve w query hints m)
  = inr match RAGManager.cache m !! cacheKey with
        | Some entry =>
            {| ok := ok (result entry); degraded := Some true;
               snippets := snippets (result entry);
               citations := citations (result entry) |}
        | None =>
            {| ok := false; degraded := Some true; snippets := [];
               citations := None |}
        end.
Proof.
  intros Hkey Hstale Htry.
  rewrite (retrieve_refused _ _ _ _ cacheKey cb' Hkey Hstale Htry). simpl.
  apply canTry_false in Htry as (-> & _ & _).
  split; [reflexivity |]. split; [by destruct m |].
  by destruct (RAGManager.cache m !! cacheKey).
Qed.

Lemma retrieve_fresh_entry_verbatim_witness :
  RAGManager.retrieve (world_at 2000 store_down) "theme" None manager_warm
  = {| RAGManager.settled := inr (result entry_theme);
       RAGManager.manager := manager_warm;
       RAGManager.searches := 0 |}.
Proof.
  apply (retrieve_fresh_entry_verbatim (world_at 2000 store_down) "theme" None
           manager_warm "pgIlike:theme:{}" entry_theme).
  - reflexivity.
  - vm_compute. reflexivity.
  - vm_compute. reflexivity.
Defined.

(** Scenario C of the spec: the expired entry comes back, marked degraded,
    while the breaker is open. *)
Lemma retrieve_refused_falls_back_witness :
  RAGManager.searches
    (RAGManager.retrieve (world_at 21000 store_up) "theme" None manager_tripped) = 0%nat /\
  RAGManager.manager
    (RAGManager.retrieve (world_at 21000 store_up) "theme" None manager_tripped)
  = manager_tripped /\
  RAGManager.settled
    (RAGManager.retrieve (world_at 21000 store_up) "theme" None manager_tripped)
  = inr match RAGManager.cache manager_tripped !! "pgIlike:theme:{}" with
        | Some entry =>
            {| ok := ok (result entry); degraded := Some true;
               snippets := snippets (result entry);
               citations := citations (result entry) |}
        | None =>
            {| ok := false; degraded := Some true; snippets := [];
               citations := None |}
        end.
Proof.
  apply (retrieve_refused_falls_back (world_at 21000 store_up) "theme" None
           manager_tripped "pgIlike:theme:{}"
           (RAGManager.circuitBreaker manager_tripped)).
  - reflexivity.
  - vm_compute. reflexivity.
  - vm_compute. reflexivity.
Defined.

Example manager_tripped_state :
  RAGManager.getCircuitBreakerState manager_tripped = OPEN /\
  CircuitBreaker.nextTryAt (RAGManager.circuitBreaker manager_tripped) = 25000%Z /\
  RAGManager.cache manager_tripped !! "pgIlike:theme:{}" = Some entry_theme.
Proof. vm_compute. repeat split; reflexivity. Qed.

(** *** Which hints have a fingerprint *)

(** [JSON.stringify] throws exactly on the values in which a BigInt occurs. *)
Lemma stringify_throws_iff_bigint (v : JsValue) :
  if has_bigint v
  then JSON.stringify v = inl (TypeError "Do not know how to serialize a BigInt")
  else exists str, JSON.stringify v = inr str.
Proof.
  unfold JSON.stringify.
  induction v as [| |b|n|n|s|items IH|props IH] using JsValue_nested_ind;
    simpl; eauto.
  - induction IH as [|x items Hx _ IHitems]; simpl; [eauto |].
    destruct (has_bigint x); simpl.
    + rewrite Hx. reflexivity.
    + destruct Hx as [sx ->].
      destruct (existsb has_bigint items).
      * match goal with
        | H : match ?t with _ => _ end = _ |- context [?t] => destruct t; [| discriminate]
        end.
        injection IHitems as ->. reflexivity.
      * match goal with
        | H : ex _ |- context [match ?t with _ => _ end] =>
            destruct H as [? H]; destruct t; [discriminate | eauto]
        end.
  - induction IH as [|[k x] props Hx _ IHprops]; simpl in *; [eauto |].
    destruct (has_bigint x); simpl.
    + rewrite Hx. reflexivity.
    + destruct Hx as [sx ->].
      match goal with
      | |- context [if ?b then _ else _] => destruct b
      end.
      * match goal with
        | H : match ?t with _ => _ end = _ |- context [?t] => destruct t; [| discriminate]
        end.
        injection IHprops as ->. reflexivity.
      * match goal with
        | H : ex _ |- context [match ?t with _ => _ end] =>
            destruct H as [? H]; destruct t; [discriminate | eauto]
        end.
Qed.

(** Hints without a BigInt always have a fingerprint, so [retrieve]
    resolves for them whatever the world does. *)
Lemma retrieve_resolves_without_bigint w query hints m :
  has_bigint (JsObject (default [] hints)) = false ->
  exists res, RAGManager.settled (RAGManager.retrieve w query hints m) = inr res.
Proof.
  intros Hclean.
  pose proof (stringify_throws_iff_bigint (JsObject (default [] hints))) as Hstr.
  rewrite Hclean in Hstr. destruct Hstr as [str Hstr].
  apply (retrieve_resolves_when_keyed _ _ _ _
           (provider_name (RAGManager.driver m) +:+ ":" +:+ query +:+ ":"
            +:+ template_of str)).
  unfold RAGManager.key. rewrite Hstr. reflexivity.
Qed.

(** C1 at a failing input: with a BigInt among the hints, whatever the
    world, the manager and the query, computing the fingerprint throws
    before the try block is entered, and the promise of retrieve is rejected
    with that TypeError. *)
Theorem retrieve_rejects_bigint_hint
    (w : World) (query : string) (m : RAGManager.t) :
  RAGManager.retrieve w query (Some [("userId", JsBigInt 10)]) m
  = {| RAGManager.settled := inl (TypeError "Do not know how to serialize a BigInt");
       RAGManager.manager := m;
       RAGManager.searches := 0 |}.
Proof. reflexivity. Qed.

(** *** The cache holds results of successful strategy calls only *)

Lemma written_by_more done c m :
  written_by done m -> written_by (done ++ [c]) m.
Proof.
  intros Hm k entry Hk.
  destruct (Hm k entry Hk) as (Hok & Hdeg & w & query & hints & Hin & Hrest).
  split; [exact Hok |]. split; [exact Hdeg |].
  exists w, query, hints. split; [| exact Hrest].
  apply in_or_app. left. exact Hin.
Qed.

Lemma written_by_same_cache done m m' :
  RAGManager.cache m' = RAGManager.cache m ->
  RAGManager.driver m' = RAGManager.driver m ->
  written_by done m -> written_by done m'.
Proof.
  unfold written_by, RAGManager.key. intros -> ->. tauto.
Qed.

Lemma retrieve_written_by done w query hints m :
  written_by done m ->
  written_by (done ++ [Retrieve w query hints])
             (RAGManager.manager (RAGManager.retrieve w query hints m)).
Proof.
  intros Hm. apply (written_by_more done (Retrieve w query hints)) in Hm.
  unfold RAGManager.retrieve.
  destruct (RAGManager.key m query hints) as [e|cacheKey] eqn:Hkey; [exact Hm |].
  destruct (RAGManager.fresh _ _ _); [exact Hm |].
  destruct (CircuitBreaker.canTry _ _) as [[] cb]; simpl;
    [| by apply (written_by_same_cache _ m)].
  destruct (driver_search _ w query hints) as [e|res] eqn:Hres;
    [by apply (written_by_same_cache _ m) |].
  destruct (ok res) eqn:Hok; [| by apply (written_by_same_cache _ m)].
  intros k entry. simpl. rewrite lookup_insert.
  case_decide as Hk.
  - intros [= <-]. subst k. simpl. split; [exact Hok |]. split.
    + apply driver_search_result in Hres as [-> | (_ & Hdeg & _)];
        [discriminate | exact Hdeg].
    + exists w, query, hints. split; [apply in_or_app; right; apply in_eq |].
      split; [exact Hkey |]. split; [exact Hres | reflexivity].
  - apply Hm.
Qed.

Lemma clearCache_written_by done m : written_by done (RAGManager.clearCache m).
Proof. intros k entry Hk. simpl in Hk. by rewrite lookup_empty in Hk. Qed.

Lemma calls_written_by cs : forall done m,
  written_by done m -> written_by (done ++ cs) (calls cs m).
Proof.
  induction cs as [|c cs IH]; intros done m Hm; simpl.
  - by rewrite app_nil_r.
  - change (done ++ c :: cs)%list with (done ++ [c] ++ cs)%list. rewrite app_assoc.
    apply IH. destruct c as [w query hints|]; simpl.
    + apply retrieve_written_by, Hm.
    + apply clearCache_written_by.
Qed.

(** C4. Starting from a new manager, after any sequence of retrieve and
    clearCache calls in any worlds, every cache entry holds a result with
    ok = true: it is the result the strategy returned to one of the
    retrieve calls, stored under that call's fingerprint, and it carries no
    degraded mark, which every fallback result has. *)
Theorem cache_entries_are_successes
    (w0 : World) (opts : option RAGManager.Opts) (cs : list Call)
    (k : string) (entry : CacheEntry) :
  RAGManager.cache (calls cs (RAGManager.new w0 opts)) !! k = Some entry ->
  ok (result entry) = true /\
  degraded (result entry) = None /\
  exists w query hints,
    In (Retrieve w query hints) cs /\
    RAGManager.key (RAGManager.new w0 opts) query hints = inr k /\
    driver_search (RAGManager.driver (RAGManager.new w0 opts)) w query hints
    = inr (result entry) /\
    at_ entry = now_retrieve w.
Proof.
  intros Hentry.
  assert (Hnew : written_by [] (RAGManager.new w0 opts)).
  { intros k' entry' Hk. simpl in Hk. by rewrite lookup_empty in Hk. }
  assert (Hdriver : forall cs' m, RAGManager.driver (calls cs' m) = RAGManager.driver m).
  { induction cs' as [|c cs' IH]; intros m; [reflexivity |].
    simpl. rewrite IH. destruct c as [w query hints|]; [| reflexivity].
    simpl. unfold RAGManager.retrieve. repeat case_match; reflexivity. }
  destruct (calls_written_by cs [] _ Hnew k entry Hentry)
    as (Hok & Hdeg & w & query & hints & Hin & Hkey & Hres & Hat).
  split; [exact Hok |]. split; [exact Hdeg |].
  exists w, query, hints. split; [exact Hin |].
  unfold RAGManager.key in *. rewrite Hdriver in Hkey, Hres. auto.
Qed.

Lemma cache_entries_are_successes_witness :
  RAGManager.cache manager_tripped !! "pgIlike:theme:{}" = Some entry_theme /\
  ok (result entry_theme) = true /\ degraded (result entry_theme) = None.
Proof.
  assert (Hentry : RAGManager.cache manager_tripped !! "pgIlike:theme:{}"
                   = Some entry_theme) by (vm_compute; reflexivity).
  split; [exact Hentry |].
  destruct (cache_entries_are_successes (world_at 0 store_up) None
              [Retrieve (world_at 1000 store_up) "theme" None;
               Retrieve (world_at 20000 store_down) "q1" None;
               Retrieve (world_at 20000 store_down) "q2" None;
               Retrieve (world_at 20000 store_down) "q3" None]
              "pgIlike:theme:{}" entry_theme Hentry) as (Hok & Hdeg & _).
  split; assumption.
Defined.

(** *** The breaker opens after [threshold] failures *)

Lemma failing_uncached_same_cache m m' c :
  RAGManager.cache m' = RAGManager.cache m ->
  RAGManager.driver m' = RAGManager.driver m ->
  failing_uncached m c -> failing_uncached m' c.
Proof.
  intros Hcache Hdriver. destruct c as [w query hints|]; simpl; [| tauto].
  unfold RAGManager.key. rewrite Hcache, Hdriver. tauto.
Qed.

(** One failed call while the breaker lets calls through: the cache stays,
    the breaker records the failure. *)
Lemma call_failing_uncached m c :
  CircuitBreaker.state (RAGManager.circuitBreaker m) <> OPEN ->
  failing_uncached m c ->
  exists w query hints,
    c = Retrieve w query hints /\
    call m c = RAGManager.set_breaker
                 (CircuitBreaker.onFailure (now_onFailure w) (RAGManager.circuitBreaker m)) m.
Proof.
  intros Hstate Hc. destruct c as [w query hints|]; [| contradiction].
  destruct Hc as (cacheKey & Hkey & Hmiss & Hfail).
  exists w, query, hints. split; [reflexivity |]. simpl.
  rewrite (retrieve_failure w query hints m cacheKey (RAGManager.circuitBreaker m));
    try assumption; [reflexivity | by rewrite Hmiss |].
  unfold CircuitBreaker.canTry.
  destruct (bool_decide_reflect
              (CircuitBreaker.state (RAGManager.circuitBreaker m) = OPEN));
    [contradiction | reflexivity].
Qed.

(** Failures that stay below the threshold leave the breaker CLOSED and
    are counted. *)
Lemma calls_failing_below_threshold fs : forall m,
  CircuitBreaker.state (RAGManager.circuitBreaker m) = CLOSED ->
  Forall (failing_uncached m) fs ->
  (CircuitBreaker.failureCount (RAGManager.circuitBreaker m) + Z.of_nat (length fs)
   < CircuitBreaker.threshold (RAGManager.circuitBreaker m))%Z ->
  calls fs m
  = RAGManager.set_breaker
      (CircuitBreaker.mk CLOSED
         (CircuitBreaker.failureCount (RAGManager.circuitBreaker m) + Z.of_nat (length fs))
         (CircuitBreaker.threshold (RAGManager.circuitBreaker m))
         (CircuitBreaker.cooldownMs (RAGManager.circuitBreaker m))
         (CircuitBreaker.nextTryAt (RAGManager.circuitBreaker m))) m.
Proof.
  induction fs as [|c fs IH]; intros m Hclosed Hfs Hbelow.
  - destruct m as [c [s n t cd nx] d ttl]. simpl in *. subst s.
    rewrite Z.add_0_r. reflexivity.
  - apply Forall_cons in Hfs as [Hc Hfs].
    destruct (call_failing_uncached m c) as (w & query & hints & -> & Hcall);
      [by rewrite Hclosed | exact Hc |].
    change (calls (Retrieve w query hints :: fs) m)
      with (calls fs (call m (Retrieve w query hints))).
    rewrite Hcall. simpl length in Hbelow.
    assert (Hstep : CircuitBreaker.onFailure (now_onFailure w) (RAGManager.circuitBreaker m)
                    = CircuitBreaker.mk CLOSED
                        (CircuitBreaker.failureCount (RAGManager.circuitBreaker m) + 1)
                        (CircuitBreaker.threshold (RAGManager.circuitBreaker m))
                        (CircuitBreaker.cooldownMs (RAGManager.circuitBreaker m))
                        (CircuitBreaker.nextTryAt (RAGManager.circuitBreaker m))).
    { unfold CircuitBreaker.onFailure. rewrite Hclosed.
      destruct (Z.leb_spec (CircuitBreaker.threshold (RAGManager.circuitBreaker m))
                           (CircuitBreaker.failureCount (RAGManager.circuitBreaker m) + 1));
        [lia | reflexivity]. }
    rewrite Hstep. rewrite IH; simpl.
    + unfold RAGManager.set_breaker. simpl. do 2 f_equal. lia.
    + reflexivity.
    + eapply Forall_impl; [exact Hfs |]. intros c'.
      apply failing_uncached_same_cache; reflexivity.
    + lia.
Qed.

(** C5. From a manager whose breaker is CLOSED with no failure counted,
    exactly [threshold] consecutive failed calls for uncached queries leave
    the breaker OPEN, with nextTryAt at the time of the last failure plus
    the cooldown; from then on a retrieve for an uncached query whose
    canTry() check comes before nextTryAt returns the empty degraded
    result, does not call the strategy, and changes nothing. *)
Theorem breaker_opens_after_threshold_failures
    (m : RAGManager.t) (fs : list Call)
    (w : World) (query : string) (hints : option Hints) :
  CircuitBreaker.state (RAGManager.circuitBreaker m) = CLOSED ->
  CircuitBreaker.failureCount (RAGManager.circuitBreaker m) = 0%Z ->
  Z.of_nat (length (fs ++ [Retrieve w query hints]))
  = CircuitBreaker.threshold (RAGManager.circuitBreaker m) ->
  Forall (failing_uncached m) (fs ++ [Retrieve w query hints]) ->
  let m' := calls (fs ++ [Retrieve w query hints]) m in
  CircuitBreaker.state (RAGManager.circuitBreaker m') = OPEN /\
  CircuitBreaker.nextTryAt (RAGManager.circuitBreaker m')
  = (now_onFailure w + CircuitBreaker.cooldownMs (RAGManager.circuitBreaker m))%Z /\
  forall w' query' hints' cacheKey',
    RAGManager.key m' query' hints' = inr cacheKey' ->
    RAGManager.cache m' !! cacheKey' = None ->
    (now_canTry w' < CircuitBreaker.nextTryAt (RAGManager.circuitBreaker m'))%Z ->
    RAGManager.retrieve w' query' hints' m'
    = {| RAGManager.settled :=
           inr {| ok := false; degraded := Some true; snippets := [];
                  citations := None |};
         RAGManager.manager := m';
         RAGManager.searches := 0 |}.
Proof.
  intros Hclosed Hzero Hlen Hfs m'.
  rewrite length_app, Nat2Z.inj_add in Hlen. simpl in Hlen.
  apply Forall_app in Hfs as [Hfs Hlast]. apply List.Forall_inv in Hlast.
  assert (Hm' : m' = RAGManager.set_breaker
                       (CircuitBreaker.mk OPEN
                          (CircuitBreaker.threshold (RAGManager.circuitBreaker m))
                          (CircuitBreaker.threshold (RAGManager.circuitBreaker m))
                          (CircuitBreaker.cooldownMs (RAGManager.circuitBreaker m))
                          (now_onFailure w
                           + CircuitBreaker.cooldownMs (RAGManager.circuitBreaker m))) m).
  { unfold m', calls. rewrite foldl_app. fold (calls fs m).
    rewrite (calls_failing_below_threshold fs m Hclosed Hfs) by lia. cbn [foldl].
    match goal with |- call ?m1 _ = _ => set (mid := m1) end.
    destruct (call_failing_uncached mid (Retrieve w query hints))
      as (w1 & query1 & hints1 & [= <- <- <-] & ->).
    - discriminate.
    - eapply failing_uncached_same_cache; [| | exact Hlast]; reflexivity.
    - unfold mid, RAGManager.set_breaker, CircuitBreaker.onFailure. simpl.
      destruct (Z.leb_spec
                  (CircuitBreaker.threshold (RAGManager.circuitBreaker m))
                  (CircuitBreaker.failureCount (RAGManager.circuitBreaker m)
                   + Z.of_nat (length fs) + 1)); [| lia].
      do 2 f_equal. lia. }
  clearbody m'. subst m'. simpl.
  split; [reflexivity |]. split; [reflexivity |].
  intros w' query' hints' cacheKey' Hkey Hmiss Hearly.
  simpl in Hmiss.
  erewrite retrieve_refused;
    [| exact Hkey | | apply canTry_open_cooling; [reflexivity | exact Hearly]].
  - simpl. rewrite Hmiss. reflexivity.
  - simpl. by rewrite Hmiss.
Qed.

(** Scenario B of the spec on a new manager (threshold 3, cooldown 5000):
    three failures at time 20000 open the breaker until 25000, and a fourth
    query at 21000 is answered without the strategy, although the store is
    back. *)
Lemma breaker_opens_after_threshold_failures_witness :
  let m' := calls [Retrieve (world_at 20000 store_down) "q1" None;
                   Retrieve (world_at 20000 store_down) "q2" None;
                   Retrieve (world_at 20000 store_down) "q3" None]
                  (RAGManager.new (world_at 0 store_up) None) in
  CircuitBreaker.state (RAGManager.circuitBreaker m') = OPEN /\
  CircuitBreaker.nextTryAt (RAGManager.circuitBreaker m') = 25000%Z /\
  RAGManager.retrieve (world_at 21000 store_up) "q4" None m'
  = {| RAGManager.settled :=
         inr {| ok := false; degraded := Some true; snippets := [];
                citations := None |};
       RAGManager.manager := m';
       RAGManager.searches := 0 |}.
Proof.
  destruct (breaker_opens_after_threshold_failures
              (RAGManager.new (world_at 0 store_up) None)
              [Retrieve (world_at 20000 store_down) "q1" None;
               Retrieve (world_at 20000 store_down) "q2" None]
              (world_at 20000 store_down) "q3" None)
    as (Hopen & Hnext & Hrefused).
  - reflexivity.
  - reflexivity.
  - reflexivity.
  - repeat constructor.
    + exists "pgIlike:q1:{}". repeat split; reflexivity.
    + exists "pgIlike:q2:{}". repeat split; reflexivity.
    + exists "pgIlike:q3:{}". repeat split; reflexivity.
  - split; [exact Hopen |]. split; [exact Hnext |].
    apply (Hrefused (world_at 21000 store_up) "q4" None "pgIlike:q4:{}").
    + reflexivity.
    + reflexivity.
    + vm_compute. reflexivity.
Defined.

(** ** Scenarios *)

(** Scenario A of the spec: the literal strategy on a store that holds the
    theme record answers with ok = true, no degraded mark, and confidence
    0.6 on every snippet; the result is cached under the fingerprint. *)
Example scenario_literal_hit :
  let out := RAGManager.retrieve (world_at 1000 store_up) "theme" (Some [])
               (RAGManager.new (world_at 0 store_up) None) in
  RAGManager.settled out = inr (result entry_theme) /\
  map confidence (snippets (result entry_theme)) = [(6 # 10)%Q; (6 # 10)%Q] /\
  RAGManager.cache (RAGManager.manager out) !! "pgIlike:theme:{}" = Some entry_theme /\
  RAGManager.searches out = 1%nat.
Proof. vm_compute. repeat split; reflexivity. Qed.

(** The fingerprint joins the driver name, the query and the serialised
    hints; no hints and empty hints share one. *)
Example fingerprint_of_hints :
  RAGManager.key manager_warm "theme" (Some [("level", JsNumber 3); ("skip", JsUndefined)])
  = inr ("pgIlike:theme:{" +:+ JSON.dquote +:+ "level" +:+ JSON.dquote +:+ ":3}") /\
  RAGManager.key manager_warm "theme" None = RAGManager.key manager_warm "theme" (Some []).
Proof. split; reflexivity. Qed.

(** Without POSTGRES_URL both drivers return the failure result, and
    through the manager the call counts as a strategy failure. *)
Example scenario_unconfigured :
  PgIlikeDriver.search world_unconfigured "theme" None = inr failed_result /\
  VectorDbDriver.search world_unconfigured "theme" None = inr failed_result /\
  CircuitBreaker.failureCount
    (RAGManager.circuitBreaker
       (call (RAGManager.new world_unconfigured None)
             (Retrieve world_unconfigured "theme" None))) = 1%Z.
Proof. repeat split; reflexivity. Qed.

(** P2 and P4 of the spec: once the entry has expired and the cooldown has
    passed, the next call probes the strategy; its success closes the
    breaker and refreshes the entry. *)
Example scenario_half_open_recovery :
  let out := RAGManager.retrieve (world_at 26000 store_up) "theme" None manager_tripped in
  RAGManager.searches out = 1%nat /\
  RAGManager.settled out = inr (result entry_theme) /\
  RAGManager.getCircuitBreakerState (RAGManager.manager out) = CLOSED /\
  CircuitBreaker.failureCount (RAGManager.circuitBreaker (RAGManager.manager out)) = 0%Z /\
  at_ <$> (RAGManager.cache (RAGManager.manager out) !! "pgIlike:theme:{}") = Some 26000%Z.
Proof. vm_compute. repeat split; reflexivity. Qed.

(** * Further properties of the retrieval layer *)

(** ** The circuit breaker: counting, cooling, configuration *)

Lemma breaker_calls_snoc cs c cb :
  breaker_calls (cs ++ [c]) cb = breaker_call (breaker_calls cs cb) c.
Proof. unfold breaker_calls. rewrite foldl_app. reflexivity. Qed.

(** Failures in a row from a closed breaker with nothing counted: the
    count is their number, the configuration stays, and the breaker is OPEN,
    cooling from the last failure, exactly from the failure that reaches the
    threshold on. *)
Lemma breaker_failures_in_a_row ts : forall cb,
  CircuitBreaker.state cb = CLOSED ->
  CircuitBreaker.failureCount cb = 0%Z ->
  let cb' := breaker_calls (map OnFailure ts) cb in
  CircuitBreaker.failureCount cb' = Z.of_nat (length ts) /\
  CircuitBreaker.threshold cb' = CircuitBreaker.threshold cb /\
  CircuitBreaker.cooldownMs cb' = CircuitBreaker.cooldownMs cb /\
  (CircuitBreaker.state cb' = OPEN \/ CircuitBreaker.state cb' = CLOSED) /\
  (CircuitBreaker.state cb' = OPEN <->
   ts <> [] /\ (CircuitBreaker.threshold cb <= Z.of_nat (length ts))%Z) /\
  (CircuitBreaker.state cb' = OPEN ->
   exists t, last ts = Some t /\
             CircuitBreaker.nextTryAt cb' = (t + CircuitBreaker.cooldownMs cb)%Z).
Proof.
  induction ts as [|t ts IH] using rev_ind; intros cb Hclosed Hzero; simpl.
  - rewrite Hclosed, Hzero. repeat split; auto; try discriminate.
    intros [Hne _]. by contradict Hne.
  - rewrite map_app. simpl map. rewrite breaker_calls_snoc. simpl.
    destruct (IH cb Hclosed Hzero) as (Hcount & Hthr & Hcool & Hstate & Hopen & _).
    set (mid := breaker_calls (map OnFailure ts) cb) in *.
    rewrite length_app, Nat2Z.inj_add. simpl.
    unfold CircuitBreaker.onFailure. rewrite Hthr, Hcount, Hcool.
    destruct (Z.leb_spec (CircuitBreaker.threshold cb) (Z.of_nat (length ts) + 1))
      as [Hreach|Hbelow]; simpl.
    + repeat split; auto; try lia.
      * intros Hnil. by destruct ts.
      * exists t. by rewrite last_snoc.
    + assert (Hmid : CircuitBreaker.state mid = CLOSED).
      { destruct Hstate as [Hs|Hs]; [| exact Hs].
        apply Hopen in Hs as [_ Hs]. lia. }
      rewrite Hmid. repeat split; auto; try discriminate; lia.
Qed.

(** X1. After a success (in whatever state), n >= 1 failures in a row leave
    a failure count of n; the breaker is then OPEN exactly when n has
    reached the threshold, and in that case nextTryAt is the time of the
    last failure plus the cooldown: every further failure restarts the
    cooldown. *)
Theorem breaker_opens_exactly_at_threshold
    (cb : CircuitBreaker.t) (ts : list Z) (t : Z) :
  let cb' := breaker_calls (OnSuccess :: map OnFailure (ts ++ [t])) cb in
  CircuitBreaker.failureCount cb' = (Z.of_nat (length ts) + 1)%Z /\
  (CircuitBreaker.state cb' = OPEN <->
   (CircuitBreaker.threshold cb <= Z.of_nat (length ts) + 1)%Z) /\
  (CircuitBreaker.state cb' <> OPEN -> CircuitBreaker.state cb' = CLOSED) /\
  (CircuitBreaker.state cb' = OPEN ->
   CircuitBreaker.nextTryAt cb' = (t + CircuitBreaker.cooldownMs cb)%Z).
Proof.
  intros cb'.
  destruct (breaker_failures_in_a_row (ts ++ [t]) (CircuitBreaker.onSuccess cb)
              eq_refl eq_refl) as (Hcount & _ & _ & Hstate & Hopen & Hnext).
  fold cb' in Hcount, Hstate, Hopen, Hnext.
  rewrite length_app, Nat2Z.inj_add in Hcount, Hopen. simpl in Hcount, Hopen.
  split; [exact Hcount |]. split; [| split].
  - split.
    + intros Hs. apply Hopen in Hs as [_ Hs]. exact Hs.
    + intros Hreach. apply Hopen. split; [by destruct ts | exact Hreach].
  - intros Hnot. destruct Hstate; [contradiction | assumption].
  - intros Hs. destruct (Hnext Hs) as (t' & Hlast & Hn).
    rewrite last_snoc in Hlast. injection Hlast as <-. exact Hn.
Qed.

(** X2. Once canTry() has returned true it keeps returning true: on the
    same breaker at any later time, and on the breaker it left behind at any
    time at all and without changing it, until a failure is recorded. *)
Theorem canTry_admits_from_then_on
    (cb cb' : CircuitBreaker.t) (now : Z) :
  CircuitBreaker.canTry now cb = (true, cb') ->
  (forall later, (now <= later)%Z -> fst (CircuitBreaker.canTry later cb) = true) /\
  (forall t, CircuitBreaker.canTry t cb' = (true, cb')).
Proof.
  unfold CircuitBreaker.canTry.
  destruct (bool_decide_reflect (CircuitBreaker.state cb = OPEN)) as [Hopen|Hother]; simpl.
  - destruct (Z.leb_spec (CircuitBreaker.nextTryAt cb) now) as [Hcooled|Hcooling];
      [| discriminate].
    intros [= <-]. split.
    + intros later Hlater.
      destruct (Z.leb_spec (CircuitBreaker.nextTryAt cb) later); [reflexivity | lia].
    + intros t. reflexivity.
  - intros [= <-]. split; [reflexivity |].
    intros t. destruct (bool_decide_reflect (CircuitBreaker.state cb = OPEN));
      [contradiction | reflexivity].
Qed.

Lemma canTry_admits_from_then_on_witness :
  let opened := breaker_calls [OnFailure 0; OnFailure 0; OnFailure 0]
                              (CircuitBreaker.new None) in
  (forall later, (5000 <= later)%Z -> fst (CircuitBreaker.canTry later opened) = true) /\
  (forall t, CircuitBreaker.canTry t (CircuitBreaker.set_state HALF_OPEN opened)
             = (true, CircuitBreaker.set_state HALF_OPEN opened)).
Proof.
  apply (canTry_admits_from_then_on
           (breaker_calls [OnFailure 0; OnFailure 0; OnFailure 0] (CircuitBreaker.new None))
           (CircuitBreaker.set_state HALF_OPEN
              (breaker_calls [OnFailure 0; OnFailure 0; OnFailure 0]
                             (CircuitBreaker.new None)))
           5000).
  reflexivity.
Defined.

Lemma breaker_call_reached opts cs c cb :
  breaker_reached opts cs cb -> breaker_reached opts (cs ++ [c]) (breaker_call cb c).
Proof.
  intros (Hcount & Hthr & Hcool & Hzero & Hnext).
  assert (Hnext' : CircuitBreaker.state cb <> CLOSED ->
                   exists t, In (OnFailure t) (cs ++ [c]) /\
                             CircuitBreaker.nextTryAt cb
                             = (t + CircuitBreaker.cooldownMs cb)%Z).
  { intros Hs. destruct (Hnext Hs) as (t & Hin & Ht).
    exists t. split; [apply in_or_app; by left | exact Ht]. }
  destruct c as [|now|now]; unfold breaker_reached; simpl.
  - repeat split; auto; try lia; try done.
  - unfold CircuitBreaker.onFailure.
    destruct (Z.leb_spec (CircuitBreaker.threshold cb) (CircuitBreaker.failureCount cb + 1));
      simpl.
    + repeat split; auto; try lia.
      intros _. exists now. split; [| reflexivity].
      apply in_or_app. right. apply in_eq.
    + repeat split; auto; lia.
  - unfold CircuitBreaker.canTry.
    destruct (bool_decide_reflect (CircuitBreaker.state cb = OPEN)) as [Hopen|Hother];
      simpl; [| by repeat split].
    destruct (CircuitBreaker.nextTryAt cb <=? now)%Z; simpl; [| by repeat split].
    repeat split; auto.
    + intros Hz. apply Hzero in Hz. congruence.
    + intros _. apply Hnext'. rewrite Hopen. discriminate.
Qed.

Lemma breaker_calls_reached opts cs : forall done cb,
  breaker_reached opts done cb -> breaker_reached opts (done ++ cs) (breaker_calls cs cb).
Proof.
  induction cs as [|c cs IH]; intros done cb Hcb; simpl.
  - by rewrite app_nil_r.
  - change (done ++ c :: cs)%list with (done ++ [c] ++ cs)%list. rewrite app_assoc.
    apply IH, breaker_call_reached, Hcb.
Qed.

(** X3. In every breaker state reached from a new breaker: the failure
    count is not negative and is zero only when the breaker is CLOSED; the
    threshold and the cooldown are those of the constructor; and outside
    CLOSED, nextTryAt is the time of one of the recorded failures plus the
    cooldown. *)
Theorem breaker_reached_states
    (opts : option CircuitBreaker.Opts) (cs : list BreakerCall) :
  let cb := breaker_calls cs (CircuitBreaker.new opts) in
  (0 <= CircuitBreaker.failureCount cb)%Z /\
  CircuitBreaker.threshold cb = default 3%Z (opts ≫= CircuitBreaker.opt_threshold) /\
  CircuitBreaker.cooldownMs cb = default 5000%Z (opts ≫= CircuitBreaker.opt_cooldownMs) /\
  (CircuitBreaker.failureCount cb = 0%Z -> CircuitBreaker.state cb = CLOSED) /\
  (CircuitBreaker.state cb <> CLOSED ->
   exists t, In (OnFailure t) cs /\
             CircuitBreaker.nextTryAt cb = (t + CircuitBreaker.cooldownMs cb)%Z).
Proof.
  apply (breaker_calls_reached opts cs [] (CircuitBreaker.new opts)).
  repeat split; simpl; auto; try lia. intros Hs. by contradict Hs.
Qed.

(** ** The drivers: what a successful search returns *)

Lemma or_empty_id query : or_empty query = query.
Proof. by destruct query. Qed.

Lemma lower_char_idempotent c : lower_char (lower_char c) = lower_char c.
Proof. destruct c as [[] [] [] [] [] [] [] []]; reflexivity. Qed.

Lemma toLowerCase_idempotent s : toLowerCase (toLowerCase s) = toLowerCase s.
Proof.
  induction s as [|c s IH]; simpl; [reflexivity |].
  by rewrite lower_char_idempotent, IH.
Qed.

(** X4. When the literal driver returns a successful result, the LIKE
    query answered with rows, and the snippets are those rows in order, one
    snippet per row: source internalDocs, the fixed confidence 0.6, the
    row's text (a string as it is, anything else serialised), and the row's
    key, layer and update time as metadata, without a distance. *)
Theorem PgIlikeDriver_snippets_follow_rows
    (w : World) (query : string) (hints : option Hints) (res : RAGResult) :
  PgIlikeDriver.search w query hints = inr res ->
  ok res = true ->
  exists rows,
    sql_like w ("%" +:+ toLowerCase query +:+ "%") = inr rows /\
    length (snippets res) = length rows /\
    Forall2 (fun r s =>
               source s = internalDocs /\
               confidence s = (6 # 10)%Q /\
               content_of r = inr (content s) /\
               metadata s = Some {| md_key := row_key r;
                                    md_layer := row_layer r;
                                    md_updatedAt := row_updated_at r;
                                    md_distance := None |})
            rows (snippets res).
Proof.
  unfold PgIlikeDriver.search. rewrite or_empty_id. intros Hres Hok.
  destruct (truthy_string (POSTGRES_URL w)) as [url|]; [| by injection Hres as <-].
  unfold try_finally, mbind, mret, Js_bind, Js_ret in Hres.
  destruct (postgres w url) as [e|[]]; [discriminate |].
  destruct (sql_end w) as [e|[]]; [discriminate |].
  destruct (sql_like w _) as [e|rows]; [discriminate |].
  destruct (mapM PgIlikeDriver.snippet_of rows) as [e|ss] eqn:Hmap; [discriminate |].
  injection Hres as <-. exists rows. split; [reflexivity |]. simpl.
  apply mapM_snippets in Hmap.
  split; [symmetry; eapply Forall2_length; exact Hmap |].
  eapply Forall2_impl; [exact Hmap |].
  intros r s Hs. unfold PgIlikeDriver.snippet_of, mbind, mret, Js_bind, Js_ret in Hs.
  destruct (content_of r) as [e|c]; [discriminate |].
  injection Hs as <-. simpl. auto.
Qed.

Lemma PgIlikeDriver_snippets_follow_rows_witness :
  exists rows,
    sql_like (world_at 0 store_up) ("%" +:+ toLowerCase "Theme" +:+ "%") = inr rows /\
    length (snippets (result entry_theme)) = length rows /\
    Forall2 (fun r s =>
               source s = internalDocs /\
               confidence s = (6 # 10)%Q /\
               content_of r = inr (content s) /\
               metadata s = Some {| md_key := row_key r;
                                    md_layer := row_layer r;
                                    md_updatedAt := row_updated_at r;
                                    md_distance := None |})
            rows (snippets (result entry_theme)).
Proof.
  apply (PgIlikeDriver_snippets_follow_rows (world_at 0 store_up) "Theme" None
           (result entry_theme)); reflexivity.
Defined.

(** X5. The literal driver is blind to letter case and to the hints: two
    queries with the same lower-case form get the same completion, whatever
    hints come with them. *)
Theorem PgIlikeDriver_ignores_case_and_hints
    (w : World) (query query' : string) (hints hints' : option Hints) :
  toLowerCase query = toLowerCase query' ->
  PgIlikeDriver.search w query hints = PgIlikeDriver.search w query' hints'.
Proof.
  intros Hsame. unfold PgIlikeDriver.search.
  rewrite !or_empty_id, Hsame. reflexivity.
Qed.

Lemma PgIlikeDriver_ignores_case_and_hints_witness :
  PgIlikeDriver.search (world_at 0 store_up) "Dark THEME" None
  = PgIlikeDriver.search (world_at 0 store_up) "dark theme"
      (Some [("level", JsNumber 3)]).
Proof.
  apply (PgIlikeDriver_ignores_case_and_hints (world_at 0 store_up)
           "Dark THEME" "dark theme" None (Some [("level", JsNumber 3)])).
  reflexivity.
Defined.

Lemma confidence_of_antitone d1 d2 :
  (VectorDbDriver.distance_or_0 d1 <= VectorDbDriver.distance_or_0 d2)%Q ->
  (VectorDbDriver.confidence_of d2 <= VectorDbDriver.confidence_of d1)%Q.
Proof.
  intros Hle. unfold VectorDbDriver.confidence_of.
  apply Q.max_le_compat_l, round_double_mono. unfold Qminus.
  apply Qplus_le_compat; [apply Qle_refl |]. by apply Qopp_le_compat.
Qed.

Lemma StronglySorted_Forall2 {A B} (R : A -> B -> Prop)
    (P : A -> A -> Prop) (S : B -> B -> Prop) (l : list A) (k : list B) :
  (forall a b x y, R a x -> R b y -> P a b -> S x y) ->
  Forall2 R l k -> StronglySorted P l -> StronglySorted S k.
Proof.
  intros Hmono Hlk. induction Hlk as [|a x l k Hax Hlk IH]; intros Hsorted.
  - constructor.
  - apply StronglySorted_inv in Hsorted as [Hrest Hhead].
    constructor; [apply IH, Hrest |].
    clear IH Hrest. induction Hlk as [|b y l k Hby _ IH]; [constructor |].
    apply Forall_cons in Hhead as [Hab Hhead].
    constructor; [by apply (Hmono a b) | by apply IH].
Qed.

(** X6. The vector driver keeps the ranking of the store: when the
    similarity query returns its rows by ascending distance (a NULL distance
    counting as 0, as in the code), the snippets come back by descending
    confidence, one per row. *)
Theorem VectorDbDriver_ranking_preserved
    (w : World) (query : string) (hints : option Hints) (res : RAGResult)
    (qvec : list JsValue) (rows : list Row) :
  VectorDbDriver.search w query hints = inr res ->
  ok res = true ->
  query_embedding w query = inr qvec ->
  sql_nearest w qvec = inr rows ->
  StronglySorted (fun r1 r2 =>
                    (VectorDbDriver.distance_or_0 (row_distance r1)
                     <= VectorDbDriver.distance_or_0 (row_distance r2))%Q) rows ->
  length (snippets res) = length rows /\
  StronglySorted (fun s1 s2 => (confidence s2 <= confidence s1)%Q) (snippets res).
Proof.
  unfold VectorDbDriver.search, query_embedding. intros Hres Hok Hq Hrows Hsorted.
  destruct (truthy_string (POSTGRES_URL w)) as [url|]; [| by injection Hres as <-].
  unfold try_finally, try_catch, mbind, mret, Js_bind, Js_ret in Hres.
  destruct (postgres w url) as [e|[]]; [discriminate |].
  destruct (sql_end w) as [e|[]]; [discriminate |].
  rewrite Hq, Hrows in Hres.
  destruct (mapM VectorDbDriver.snippet_of rows) as [e|ss] eqn:Hmap;
    [by injection Hres as <- |].
  injection Hres as <-. simpl. apply mapM_snippets in Hmap.
  split; [symmetry; eapply Forall2_length; exact Hmap |].
  eapply StronglySorted_Forall2; [| exact Hmap | exact Hsorted].
  intros a b x y Hx Hy Hab.
  unfold VectorDbDriver.snippet_of, mbind, mret, Js_bind, Js_ret in Hx, Hy.
  destruct (content_of a); [discriminate |]. destruct (content_of b); [discriminate |].
  injection Hx as <-. injection Hy as <-. simpl.
  by apply confidence_of_antitone.
Qed.

Lemma VectorDbDriver_ranking_preserved_witness :
  exists res,
    VectorDbDriver.search (world_at 0 store_up) "theme" None = inr res /\
    length (snippets res) = 2%nat /\
    StronglySorted (fun s1 s2 => (confidence s2 <= confidence s1)%Q) (snippets res).
Proof.
  destruct (VectorDbDriver.search (world_at 0 store_up) "theme" None)
    as [e|res] eqn:Hres; [discriminate |].
  exists res. split; [reflexivity |].
  apply (VectorDbDriver_ranking_preserved (world_at 0 store_up) "theme" None res
           [JsNumber 1; JsNumber 0] [row_theme; row_far] Hres).
  - injection Hres as <-. reflexivity.
  - reflexivity.
  - reflexivity.
  - repeat constructor. discriminate.
Defined.

(** X7. The ends of the confidence scale: a row whose distance is NULL or
    zero becomes a snippet with confidence 1, a row at distance 1 or more a
    snippet with confidence 0. *)
Theorem VectorDbDriver_confidence_saturates (r : Row) (s : RAGSnippet) :
  VectorDbDriver.snippet_of r = inr s ->
  ((row_distance r = None \/ exists d, row_distance r = Some d /\ (d == 0)%Q) ->
   (confidence s == 1)%Q) /\
  (forall d, row_distance r = Some d -> (1 <= d)%Q -> (confidence s == 0)%Q).
Proof.
  unfold VectorDbDriver.snippet_of, mbind, mret, Js_bind, Js_ret.
  destruct (content_of r); [discriminate |]. intros [= <-]. simpl. split.
  - intros [-> | (d & -> & Hd)].
    + apply confidence_of_null.
    + rewrite confidence_of_distance, Hd. vm_compute. reflexivity.
  - intros d -> Hd. rewrite confidence_of_distance.
    apply Q.max_l, round_double_nonpos. lra.
Qed.

Lemma VectorDbDriver_confidence_saturates_witness :
  exists s, VectorDbDriver.snippet_of row_far = inr s /\ (confidence s == 0)%Q.
Proof.
  destruct (VectorDbDriver.snippet_of row_far) as [e|s] eqn:Hs; [discriminate |].
  exists s. split; [reflexivity |].
  destruct (VectorDbDriver_confidence_saturates row_far s Hs) as [_ Hfar].
  apply (Hfar (3 # 2)%Q); [reflexivity | discriminate].
Defined.

(** ** embedText *)

(** X8. embedText returns a vector exactly when a key is available (the
    argument if it is a non-empty string, else a non-empty OPENAI_API_KEY),
    the request made with that key is answered with an ok status and a body
    that parses, and the value at data[0].embedding of the body is an array;
    the vector returned is that array. *)
Theorem embedText_returns_iff
    (w : World) (input : string) (apiKey : option string) (model : string)
    (vec : list JsValue) :
  embedText w input apiKey model = inr vec <->
  exists key res json,
    (truthy_string apiKey = Some key \/
     (truthy_string apiKey = None /\ truthy_string (OPENAI_API_KEY w) = Some key)) /\
    fetch_embeddings w key model input = inr res /\
    res_ok res = true /\
    res_json res = inr json /\
    opt_chain (opt_chain (opt_chain json (fun j => get_prop j "data"))
                         (fun d => get_index d 0))
              (fun x => get_prop x "embedding")
    = JsArray vec.
Proof.
  unfold embedText, or_else. split.
  - intros Hvec.
    destruct (truthy_string apiKey) as [k|] eqn:Harg.
    + assert (Hk : truthy_string (Some k) = Some k).
      { destruct apiKey as [[|c s]|]; simpl in Harg; try discriminate.
        by injection Harg as <-. }
      rewrite Hk in Hvec. js_cases; try discriminate.
      eexists _, _, _.
      split; [first [left; reflexivity | right; split; reflexivity] |].
      split; [eassumption |]. split; [by apply negb_false_iff |].
      split; [eassumption | assumption].
    + destruct (truthy_string (OPENAI_API_KEY w)) as [k|] eqn:Henv; [| discriminate].
      js_cases; try discriminate.
      eexists _, _, _.
      split; [first [left; reflexivity | right; split; reflexivity] |].
      split; [eassumption |]. split; [by apply negb_false_iff |].
      split; [eassumption | assumption].
  - intros (key & res & json & Hkey & Hfetch & Hok & Hjson & Hvec).
    assert (Hchosen : truthy_string
                        match truthy_string apiKey with
                        | Some s => Some s
                        | None => OPENAI_API_KEY w
                        end = Some key).
    { destruct Hkey as [Harg | [Harg Henv]]; rewrite Harg; [| exact Henv].
      destruct apiKey as [[|c s]|]; simpl in Harg; try discriminate.
      by injection Harg as <-. }
    rewrite Hchosen. unfold mbind, Js_bind. rewrite Hfetch, Hok. simpl.
    rewrite Hjson, Hvec. reflexivity.
Qed.

(** X9. A missing API key is a failure result, not an exception, for the
    vector driver: with the store configured, the client built and closed
    without error, and OPENAI_API_KEY unset or empty, search returns
    { ok: false, degraded: true, snippets: [] }, whatever the embedding
    service and the store would have answered. *)
Theorem VectorDbDriver_search_without_api_key
    (w : World) (query : string) (hints : option Hints) (url : string) :
  truthy_string (POSTGRES_URL w) = Some url ->
  postgres w url = inr () ->
  sql_end w = inr () ->
  truthy_string (OPENAI_API_KEY w) = None ->
  VectorDbDriver.search w query hints = inr failed_result.
Proof.
  intros Hurl Hclient Hend Hkey. unfold VectorDbDriver.search.
  rewrite Hurl, Hclient. simpl. rewrite Hend. unfold try_finally, try_catch.
  unfold embedText, or_else. simpl. rewrite Hkey. reflexivity.
Qed.

Lemma VectorDbDriver_search_without_api_key_witness :
  VectorDbDriver.search world_without_api_key "theme" None = inr failed_result.
Proof.
  apply (VectorDbDriver_search_without_api_key world_without_api_key "theme" None
           "postgres://db/app"); reflexivity.
Defined.

(** ** The manager: construction and configuration *)

(** X10. The constructor picks the vector driver exactly when the provider
    option says vectorDB or, without a provider option, RAG_PROVIDER is the
    string vectorDB; every other value of the variable, the empty string and
    another spelling included, gives the literal driver.  The new manager
    has an empty cache, a CLOSED breaker with threshold 3 and cooldown 5000,
    and the TTL option or 15000. *)
Theorem RAGManager_new_configuration (w : World) (opts : option RAGManager.Opts) :
  let m := RAGManager.new w opts in
  (RAGManager.driver m = vectorDB <->
   opts ≫= RAGManager.opt_provider = Some vectorDB \/
   (opts ≫= RAGManager.opt_provider = None /\ RAG_PROVIDER w = Some "vectorDB")) /\
  (RAGManager.driver m <> vectorDB -> RAGManager.driver m = pgIlike) /\
  RAGManager.cache m = ∅ /\
  RAGManager.ttlMs m = default 15000%Z (opts ≫= RAGManager.opt_ttlMs) /\
  RAGManager.circuitBreaker m = CircuitBreaker.mk CLOSED 0 3 5000 0.
Proof.
  simpl. split; [| split; [| by repeat split]].
  - destruct (opts ≫= RAGManager.opt_provider) as [[]|]; simpl.
    + split; [discriminate | intros [[=] | [[=] _]]].
    + split; [by left | reflexivity].
    + destruct (RAG_PROVIDER w) as [p|]; simpl.
      * destruct (String.eqb_spec p "vectorDB") as [->|Hne].
        -- split; [by right | reflexivity].
        -- split; [discriminate | intros [[=] | [_ [= ->]]]; by contradict Hne].
      * split; [discriminate | intros [[=] | [_ [=]]]].
  - by destruct (if String.eqb _ _ then vectorDB else pgIlike).
Qed.

Example RAGManager_new_other_spelling :
  RAGManager.driver (RAGManager.new world_without_api_key None) = vectorDB /\
  RAGManager.driver
    (RAGManager.new world_without_api_key
       (Some {| RAGManager.opt_provider := Some pgIlike;
                RAGManager.opt_ttlMs := None |})) = pgIlike.
Proof. split; reflexivity. Qed.

Lemma retrieve_configuration w query hints m :
  let m' := RAGManager.manager (RAGManager.retrieve w query hints m) in
  RAGManager.driver m' = RAGManager.driver m /\
  RAGManager.ttlMs m' = RAGManager.ttlMs m /\
  CircuitBreaker.threshold (RAGManager.circuitBreaker m')
  = CircuitBreaker.threshold (RAGManager.circuitBreaker m) /\
  CircuitBreaker.cooldownMs (RAGManager.circuitBreaker m')
  = CircuitBreaker.cooldownMs (RAGManager.circuitBreaker m).
Proof.
  unfold RAGManager.retrieve, CircuitBreaker.canTry, CircuitBreaker.onFailure.
  repeat case_match; simplify_eq/=; auto.
Qed.

(** X11. The configuration is fixed at construction: whatever calls are
    made on a manager, in whatever worlds, its driver, its TTL and the
    threshold and cooldown of its breaker stay what they were. *)
Theorem calls_keep_configuration (cs : list Call) (m : RAGManager.t) :
  RAGManager.driver (calls cs m) = RAGManager.driver m /\
  RAGManager.ttlMs (calls cs m) = RAGManager.ttlMs m /\
  CircuitBreaker.threshold (RAGManager.circuitBreaker (calls cs m))
  = CircuitBreaker.threshold (RAGManager.circuitBreaker m) /\
  CircuitBreaker.cooldownMs (RAGManager.circuitBreaker (calls cs m))
  = CircuitBreaker.cooldownMs (RAGManager.circuitBreaker m).
Proof.
  revert m. induction cs as [|c cs IH]; intros m; [by repeat split |].
  simpl. destruct (IH (call m c)) as (-> & -> & -> & ->).
  destruct c as [w query hints|]; simpl; [| by repeat split].
  apply retrieve_configuration.
Qed.

(** ** The manager: what retrieve does to the cache and what it returns *)

(** X12. A query repeated within the TTL is answered from the cache: when
    a call reaches the strategy and the strategy succeeds, the call returns
    the strategy's result, and a second call for the same query and hints
    whose clock reads less than the TTL later returns that same result,
    without calling the strategy, and leaves the manager as the first call
    left it, in whatever world the second call runs. *)
Theorem retrieve_repeat_within_ttl
    (w1 w2 : World) (query : string) (hints : option Hints) (m : RAGManager.t)
    (cacheKey : string) (cb' : CircuitBreaker.t) (res : RAGResult) :
  RAGManager.key m query hints = inr cacheKey ->
  RAGManager.fresh m (now_retrieve w1) (RAGManager.cache m !! cacheKey) = None ->
  CircuitBreaker.canTry (now_canTry w1) (RAGManager.circuitBreaker m) = (true, cb') ->
  driver_search (RAGManager.driver m) w1 query hints = inr res ->
  ok res = true ->
  (now_retrieve w2 - now_retrieve w1 < RAGManager.ttlMs m)%Z ->
  let first := RAGManager.retrieve w1 query hints m in
  let second := RAGManager.retrieve w2 query hints (RAGManager.manager first) in
  RAGManager.settled first = inr res /\
  RAGManager.searches first = 1%nat /\
  RAGManager.settled second = inr res /\
  RAGManager.searches second = 0%nat /\
  RAGManager.manager second = RAGManager.manager first.
Proof.
  intros Hkey Hstale Htry Hres Hok Hsoon first second.
  assert (Hfirst : first = _)
    by exact (retrieve_success w1 query hints m cacheKey cb' res Hkey Hstale Htry Hres Hok).
  assert (Hsecond : second
                    = {| RAGManager.settled := inr res;
                         RAGManager.manager := RAGManager.manager first;
                         RAGManager.searches := 0 |}).
  { unfold second. apply (retrieve_fresh _ _ _ _ cacheKey).
    - rewrite Hfirst. exact Hkey.
    - rewrite Hfirst. simpl. rewrite lookup_insert_eq. simpl.
      destruct (Z.ltb_spec (now_retrieve w2 - now_retrieve w1) (RAGManager.ttlMs m));
        [reflexivity | lia]. }
  rewrite Hsecond. rewrite Hfirst. simpl. repeat split.
Qed.

Lemma retrieve_repeat_within_ttl_witness :
  let first := RAGManager.retrieve (world_at 1000 store_up) "theme" None
                 (RAGManager.new (world_at 0 store_up) None) in
  let second := RAGManager.retrieve (world_at 15999 store_down) "theme" None
                  (RAGManager.manager first) in
  RAGManager.settled first = inr (result entry_theme) /\
  RAGManager.searches first = 1%nat /\
  RAGManager.settled second = inr (result entry_theme) /\
  RAGManager.searches second = 0%nat /\
  RAGManager.manager second = RAGManager.manager first.
Proof.
  apply (retrieve_repeat_within_ttl (world_at 1000 store_up) (world_at 15999 store_down)
           "theme" None (RAGManager.new (world_at 0 store_up) None)
           "pgIlike:theme:{}" (CircuitBreaker.new None) (result entry_theme));
    try reflexivity.
Defined.

(** X13. An expired entry is never served as fresh: when the entry of the
    fingerprint is as old as the TTL or older and canTry() admits the call,
    the strategy is called once.  If it succeeds, its result is returned
    unchanged, replaces the entry with the clock reading of this call, and
    the breaker is CLOSED with no failure counted, whatever its state was;
    if it fails, the expired result comes back with degraded set to true,
    the entry stays, and the failure is recorded. *)
Theorem retrieve_expired_entry_calls_strategy
    (w : World) (query : string) (hints : option Hints) (m : RAGManager.t)
    (cacheKey : string) (entry : CacheEntry) (cb' : CircuitBreaker.t) :
  RAGManager.key m query hints = inr cacheKey ->
  RAGManager.cache m !! cacheKey = Some entry ->
  (RAGManager.ttlMs m <= now_retrieve w - at_ entry)%Z ->
  CircuitBreaker.canTry (now_canTry w) (RAGManager.circuitBreaker m) = (true, cb') ->
  let out := RAGManager.retrieve w query hints m in
  RAGManager.searches out = 1%nat /\
  (forall res,
     driver_search (RAGManager.driver m) w query hints = inr res -> ok res = true ->
     RAGManager.settled out = inr res /\
     RAGManager.cache (RAGManager.manager out) !! cacheKey
     = Some {| at_ := now_retrieve w; result := res |} /\
     CircuitBreaker.state (RAGManager.circuitBreaker (RAGManager.manager out)) = CLOSED /\
     CircuitBreaker.failureCount (RAGManager.circuitBreaker (RAGManager.manager out)) = 0%Z) /\
  (search_failed (driver_search (RAGManager.driver m) w query hints) = true ->
   RAGManager.settled out = inr (degrade (result entry)) /\
   RAGManager.cache (RAGManager.manager out) = RAGManager.cache m /\
   RAGManager.circuitBreaker (RAGManager.manager out)
   = CircuitBreaker.onFailure (now_onFailure w) cb').
Proof.
  intros Hkey Hentry Hold Htry out.
  assert (Hstale : RAGManager.fresh m (now_retrieve w) (RAGManager.cache m !! cacheKey) = None).
  { rewrite Hentry. simpl.
    destruct (Z.ltb_spec (now_retrieve w - at_ entry) (RAGManager.ttlMs m));
      [lia | reflexivity]. }
  split; [| split].
  - unfold out, RAGManager.retrieve. rewrite Hkey, Hstale, Htry. simpl.
    by repeat case_match.
  - intros res Hres Hok. unfold out.
    rewrite (retrieve_success w query hints m cacheKey cb' res Hkey Hstale Htry Hres Hok).
    simpl. rewrite lookup_insert_eq. by repeat split.
  - intros Hfail. unfold out.
    rewrite (retrieve_failure w query hints m cacheKey cb' Hkey Hstale Htry Hfail).
    simpl. rewrite Hentry. by repeat split.
Qed.

(** P4 of the spec on the tripped manager: after the cooldown the probe
    for the expired entry reaches the store and, the store being back,
    closes the breaker. *)
Lemma retrieve_expired_entry_calls_strategy_witness :
  let out := RAGManager.retrieve (world_at 26000 store_up) "theme" None manager_tripped in
  RAGManager.searches out = 1%nat /\
  RAGManager.settled out = inr (result entry_theme) /\
  CircuitBreaker.state (RAGManager.circuitBreaker (RAGManager.manager out)) = CLOSED.
Proof.
  destruct (retrieve_expired_entry_calls_strategy (world_at 26000 store_up) "theme" None
              manager_tripped "pgIlike:theme:{}" entry_theme
              (CircuitBreaker.set_state HALF_OPEN (RAGManager.circuitBreaker manager_tripped)))
    as (Hsearch & Hsuccess & _).
  - reflexivity.
  - vm_compute. reflexivity.
  - vm_compute. discriminate.
  - vm_compute. reflexivity.
  - split; [exact Hsearch |].
    destruct (Hsuccess (result entry_theme)) as (Hres & _ & Hclosed & _);
      [vm_compute; reflexivity | reflexivity |].
    split; assumption.
Defined.

(** X14. retrieve changes no entry but that of its own fingerprint and
    never removes one: every other fingerprint keeps what it had, and the
    call's own entry stays or is replaced by a successful result of this
    call's strategy invocation.  A call whose fingerprint cannot be computed
    changes nothing. *)
Theorem retrieve_touches_own_entry_only
    (w : World) (query : string) (hints : option Hints) (m : RAGManager.t) :
  let m' := RAGManager.manager (RAGManager.retrieve w query hints m) in
  match RAGManager.key m query hints with
  | inl _ => m' = m
  | inr cacheKey =>
      (forall k, k <> cacheKey -> RAGManager.cache m' !! k = RAGManager.cache m !! k) /\
      (RAGManager.cache m' !! cacheKey = RAGManager.cache m !! cacheKey \/
       exists res,
         driver_search (RAGManager.driver m) w query hints = inr res /\
         ok res = true /\
         RAGManager.cache m' !! cacheKey = Some {| at_ := now_retrieve w; result := res |})
  end.
Proof.
  unfold RAGManager.retrieve.
  destruct (RAGManager.key m query hints) as [e|cacheKey]; [reflexivity |].
  destruct (RAGManager.fresh _ _ _); simpl; [by split; [| left] |].
  destruct (CircuitBreaker.canTry _ _) as [[] cb]; simpl; [| by split; [| left]].
  destruct (driver_search _ w query hints) as [e|res]; [by split; [| left] |].
  destruct (ok res) eqn:Hok; simpl; [| by split; [| left]].
  split.
  - intros k Hk. by rewrite lookup_insert_ne.
  - right. exists res. by rewrite lookup_insert_eq.
Qed.

(** X15. What a manager built by the constructor can return, after any
    calls: a result with ok = true and no degraded field (a fresh entry or
    the strategy's answer), a cached result with degraded set to true, or
    the empty failure result.  So a result with ok = false is always
    exactly { ok: false, degraded: true, snippets: [] }, and a result that
    is not marked degraded is never a failure. *)
Theorem retrieve_result_shapes
    (w0 : World) (opts : option RAGManager.Opts) (cs : list Call)
    (w : World) (query : string) (hints : option Hints) (res : RAGResult) :
  let m := calls cs (RAGManager.new w0 opts) in
  RAGManager.settled (RAGManager.retrieve w query hints m) = inr res ->
  (ok res = true /\ degraded res = None) \/
  (exists k entry,
     RAGManager.cache m !! k = Some entry /\
     res = degrade (result entry) /\ ok res = true /\ degraded res = Some true) \/
  res = failed_result.
Proof.
  intros m.
  assert (Hm : written_by ([] ++ cs) m).
  { apply calls_written_by. intros k entry Hk. simpl in Hk.
    by rewrite lookup_empty in Hk. }
  assert (Hfallback : forall k,
            (exists entry,
               RAGManager.cache m !! k = Some entry /\
               RAGManager.fallback (RAGManager.cache m !! k) = degrade (result entry) /\
               ok (degrade (result entry)) = true) \/
            RAGManager.fallback (RAGManager.cache m !! k) = failed_result).
  { intros k. destruct (RAGManager.cache m !! k) as [entry|] eqn:Hk; [left | by right].
    exists entry. destruct (Hm k entry Hk) as (Hok & _). by repeat split. }
  assert (Hshape : forall k r, r = RAGManager.fallback (RAGManager.cache m !! k) ->
            (exists k entry,
               RAGManager.cache m !! k = Some entry /\
               r = degrade (result entry) /\ ok r = true /\ degraded r = Some true) \/
            r = failed_result).
  { intros k r ->. destruct (Hfallback k) as [(entry & Hk & -> & Hok) | ->];
      [left | by right].
    exists k, entry. by repeat split. }
  unfold RAGManager.retrieve.
  destruct (RAGManager.key m query hints) as [e|cacheKey]; [discriminate |].
  destruct (RAGManager.cache m !! cacheKey) as [entry|] eqn:Hentry.
  - simpl. destruct (_ <? _)%Z.
    + intros [= <-]. left. destruct (Hm cacheKey entry Hentry) as (Hok & Hdeg & _). by split.
    + destruct (CircuitBreaker.canTry _ _) as [[] cb]; simpl;
        [| intros [= <-]; right; apply (Hshape cacheKey); by rewrite Hentry].
      destruct (driver_search _ w query hints) as [e|r] eqn:Hr;
        [intros [= <-]; right; apply (Hshape cacheKey); by rewrite Hentry |].
      destruct (ok r) eqn:Hok; simpl;
        [| intros [= <-]; right; apply (Hshape cacheKey); by rewrite Hentry].
      intros [= <-]. left. split; [exact Hok |].
      apply driver_search_result in Hr as [-> | (_ & Hdeg & _)]; [discriminate | exact Hdeg].
  - simpl. destruct (CircuitBreaker.canTry _ _) as [[] cb]; simpl;
      [| intros [= <-]; by right; right].
    destruct (driver_search _ w query hints) as [e|r] eqn:Hr;
      [intros [= <-]; by right; right |].
    destruct (ok r) eqn:Hok; simpl; [| intros [= <-]; by right; right].
    intros [= <-]. left. split; [exact Hok |].
    apply driver_search_result in Hr as [-> | (_ & Hdeg & _)]; [discriminate | exact Hdeg].
Qed.

Lemma retrieve_result_shapes_witness :
  exists k entry,
    RAGManager.cache manager_tripped !! k = Some entry /\
    degrade (result entry_theme) = degrade (result entry) /\
    ok (degrade (result entry_theme)) = true /\
    degraded (degrade (result entry_theme)) = Some true.
Proof.
  destruct (retrieve_result_shapes (world_at 0 store_up) None
              [Retrieve (world_at 1000 store_up) "theme" None;
               Retrieve (world_at 20000 store_down) "q1" None;
               Retrieve (world_at 20000 store_down) "q2" None;
               Retrieve (world_at 20000 store_down) "q3" None]
              (world_at 21000 store_up) "theme" None (degrade (result entry_theme)))
    as [[_ Hdeg] | [Hstale | Hfailed]].
  - vm_compute. reflexivity.
  - discriminate Hdeg.
  - exact Hstale.
  - discriminate Hfailed.
Defined.

(** X16. An open breaker shields the store: while the breaker is OPEN, no
    list of retrieve and clearCache calls whose canTry() checks all come
    before nextTryAt reaches the strategy, not once, and the breaker stays
    exactly as it was. *)
Theorem open_breaker_shields_strategy (cs : list Call) (m : RAGManager.t) :
  CircuitBreaker.state (RAGManager.circuitBreaker m) = OPEN ->
  Forall (checked_before (CircuitBreaker.nextTryAt (RAGManager.circuitBreaker m))) cs ->
  total_searches cs m = 0%nat /\
  RAGManager.circuitBreaker (calls cs m) = RAGManager.circuitBreaker m.
Proof.
  revert m. induction cs as [|c cs IH]; intros m Hopen Hcs; [by split |].
  apply Forall_cons in Hcs as [Hc Hcs]. simpl.
  assert (Hstep : match c with
                  | Retrieve w query hints =>
                      RAGManager.searches (RAGManager.retrieve w query hints m)
                  | ClearCache => 0%nat
                  end = 0%nat /\
                  RAGManager.circuitBreaker (call m c) = RAGManager.circuitBreaker m).
  { destruct c as [w query hints|]; simpl; [| by split].
    unfold RAGManager.retrieve.
    destruct (RAGManager.key m query hints); [by split |].
    destruct (RAGManager.fresh _ _ _); [by split |].
    rewrite (canTry_open_cooling _ _ Hopen Hc). by split. }
  destruct Hstep as [-> Hcb].
  destruct (IH (call m c)) as [-> ->]; rewrite ?Hcb; auto.
Qed.

Lemma open_breaker_shields_strategy_witness :
  total_searches [Retrieve (world_at 21000 store_up) "q4" None;
                  ClearCache;
                  Retrieve (world_at 24999 store_up) "theme" None]
                 manager_tripped = 0%nat /\
  RAGManager.circuitBreaker
    (calls [Retrieve (world_at 21000 store_up) "q4" None;
            ClearCache;
            Retrieve (world_at 24999 store_up) "theme" None] manager_tripped)
  = RAGManager.circuitBreaker manager_tripped.
Proof.
  apply (open_breaker_shields_strategy
           [Retrieve (world_at 21000 store_up) "q4" None;
            ClearCache;
            Retrieve (world_at 24999 store_up) "theme" None] manager_tripped).
  - reflexivity.
  - repeat constructor.
Defined.

(** X17. clearCache empties the cache and touches nothing else, so it
    takes the stale fallbacks away: after it, a retrieve that does not
    reach the strategy can only return the empty failure result, and it
    does so exactly when the breaker refuses the call. *)
Theorem clearCache_drops_fallbacks
    (w : World) (query : string) (hints : option Hints) (m : RAGManager.t)
    (res : RAGResult) :
  let out := RAGManager.retrieve w query hints (RAGManager.clearCache m) in
  RAGManager.circuitBreaker (RAGManager.clearCache m) = RAGManager.circuitBreaker m /\
  RAGManager.driver (RAGManager.clearCache m) = RAGManager.driver m /\
  RAGManager.ttlMs (RAGManager.clearCache m) = RAGManager.ttlMs m /\
  (RAGManager.settled out = inr res -> RAGManager.searches out = 0%nat ->
   res = failed_result /\
   fst (CircuitBreaker.canTry (now_canTry w) (RAGManager.circuitBreaker m)) = false).
Proof.
  simpl. repeat split; unfold RAGManager.retrieve in *;
    destruct (RAGManager.key (RAGManager.clearCache m) query hints) as [e|cacheKey];
    try discriminate; simpl in *; rewrite lookup_empty in *; simpl in *;
    destruct (CircuitBreaker.canTry _ _) as [[] cb]; simpl in *;
    repeat case_match; simplify_eq/=; auto.
Qed.

(** ** The fingerprint *)

Lemma stringify_object props :
  JSON.stringify (JsObject props)
  = match members_of props with
    | inl e => inl e
    | inr partial => inr (Some ("{" +:+ JSON.join "," partial +:+ "}"))
    end.
Proof. reflexivity. Qed.

Lemma members_of_defined props :
  members_of (filter (fun kv => defined_prop kv = true) props) = members_of props.
Proof.
  induction props as [|[P x] props IH]; [reflexivity |].
  rewrite filter_cons.
  destruct (decide (defined_prop (P, x) = true)) as [Hdef|Hundef].
  - simpl. by rewrite IH.
  - rewrite IH. destruct x; try (by contradict Hundef).
    simpl. by destruct (members_of props).
Qed.

(** X18. Properties set to undefined do not count in the fingerprint, and
    neither does leaving the hints out: hints that differ only in such
    properties, and absent and empty hints, share one cache entry. *)
Theorem key_ignores_undefined_hints
    (m : RAGManager.t) (query : string) (hints : Hints) :
  RAGManager.key m query (Some (filter (fun kv => defined_prop kv = true) hints))
  = RAGManager.key m query (Some hints) /\
  RAGManager.key m query None = RAGManager.key m query (Some []).
Proof.
  split; [| reflexivity].
  unfold RAGManager.key. simpl default.
  by rewrite !stringify_object, members_of_defined.
Qed.

Example key_ignores_undefined_hints_example :
  RAGManager.key manager_warm "theme"
    (Some [("level", JsNumber 3); ("topic", JsUndefined)])
  = RAGManager.key manager_warm "theme" (Some [("level", JsNumber 3)]) /\
  RAGManager.key manager_warm "theme" (Some [("a", JsNumber 1); ("b", JsNumber 2)])
  <> RAGManager.key manager_warm "theme" (Some [("b", JsNumber 2); ("a", JsNumber 1)]).
Proof. split; [reflexivity | discriminate]. Qed.

(** X19. Fingerprints carry the driver: a fingerprint computed by a manager
    on one driver is never the fingerprint of any query and hints under the
    other driver, so results of the literal and of the vector strategy
    cannot be served for one another. *)
Theorem key_separates_drivers
    (m1 m2 : RAGManager.t) (query1 query2 : string) (hints1 hints2 : option Hints)
    (k : string) :
  RAGManager.key m1 query1 hints1 = inr k ->
  RAGManager.key m2 query2 hints2 = inr k ->
  RAGManager.driver m1 = RAGManager.driver m2.
Proof.
  unfold RAGManager.key, mbind, mret, Js_bind, Js_ret.
  destruct (JSON.stringify _); [discriminate |].
  destruct (JSON.stringify _); [discriminate |].
  intros [= <-].
  destruct (RAGManager.driver m1), (RAGManager.driver m2);
    simpl; intros [=]; reflexivity.
Qed.

Lemma key_separates_drivers_witness :
  RAGManager.driver manager_warm = RAGManager.driver manager_tripped.
Proof.
  apply (key_separates_drivers manager_warm manager_tripped "theme" "theme"
           None (Some []) "pgIlike:theme:{}"); reflexivity.
Defined.

(** X24. On hints that are plain data, as [JsValue] describes it (nested
    arrays and plain objects of null, booleans, integers, strings, undefined
    and BigInts, none of them reachable from itself, without toJSON methods
    or getters), retrieve rejects exactly when a BigInt occurs in the hints:
    then the promise is rejected with the TypeError of JSON.stringify,
    nothing is called and nothing changes; for all other such hints
    retrieve resolves to a result, in every world and every state of the
    manager.  Hints outside plain data are not covered: a cyclic hints
    object makes JSON.stringify throw as well. *)
Theorem retrieve_rejects_iff_bigint
    (w : World) (query : string) (hints : option Hints) (m : RAGManager.t) :
  if has_bigint (JsObject (default [] hints))
  then RAGManager.retrieve w query hints m
       = {| RAGManager.settled := inl (TypeError "Do not know how to serialize a BigInt");
            RAGManager.manager := m;
            RAGManager.searches := 0 |}
  else exists res, RAGManager.settled (RAGManager.retrieve w query hints m) = inr res.
Proof.
  destruct (has_bigint (JsObject (default [] hints))) eqn:Hbig.
  - pose proof (stringify_throws_iff_bigint (JsObject (default [] hints))) as Hstr.
    rewrite Hbig in Hstr. unfold RAGManager.retrieve, RAGManager.key.
    rewrite Hstr. reflexivity.
  - apply retrieve_resolves_without_bigint, Hbig.
Qed.

Example retrieve_rejects_nested_bigint :
  RAGManager.settled
    (RAGManager.retrieve (world_at 0 store_up) "theme"
       (Some [("filter", JsObject [("ids", JsArray [JsNumber 1; JsBigInt 2])])])
       manager_warm)
  = inl (TypeError "Do not know how to serialize a BigInt").
Proof. reflexivity. Qed.

(** * Properties of the callers *)

(** ** lib/jobs/reindex-memories.ts *)

Example reindex_script_sample :
  reindex_script (sample_job sample_rows)
  = ([EmbedFail (JsNumber 2) (Error "deadlock detected");
      Summary ("{" +:+ JSON.dquote +:+ "updated" +:+ JSON.dquote +:+ ":2,"
               +:+ JSON.dquote +:+ "failed" +:+ JSON.dquote +:+ ":1}")],
     None).
Proof. reflexivity. Qed.




Lemma text_of_without_bigint r :
  has_bigint (mem_content r) = false -> exists text, text_of r = inr text.
Proof.
  intros Hclean. unfold text_of.
  pose proof (stringify_throws_iff_bigint (mem_content r)) as Hstr.
  rewrite Hclean in Hstr. destruct (mem_content r); eauto.
Qed.

Lemma reindex_rows_completes jw rows : forall ok fail,
  Forall (fun r => has_bigint (mem_content r) = false) rows ->
  exists lines counts, reindex_rows jw rows ok fail = (lines, inr counts).
Proof.
  induction rows as [|r rows IH]; simpl; intros ok fail Hrows; [eauto |].
  apply Forall_cons in Hrows as [Hr Hrows].
  destruct (text_of_without_bigint r Hr) as [text ->].
  destruct (reindex_row jw r text) as [e|[]].
  - destruct (IH ok (S fail) Hrows) as (lines & counts & ->). eauto.
  - apply IH, Hrows.
Qed.

(** X21. No failure on a row stops the job: with POSTGRES_URL set, the
    client built, the SELECT answered, no BigInt in the contents and the
    client closed without error, the job completes and asks for no exit
    code, whatever the embedding service and the UPDATEs do on any row. *)
Theorem reindex_survives_row_failures
    (jw : JobWorld) (url : string) (rows : list MemoryRow) :
  truthy_string (POSTGRES_URL (job_env jw)) = Some url ->
  postgres (job_env jw) url = inr () ->
  select_unembedded jw = inr rows ->
  Forall (fun r => has_bigint (mem_content r) = false) rows ->
  sql_end (job_env jw) = inr () ->
  snd (reindex_main jw) = inr () /\ snd (reindex_script jw) = None.
Proof.
  intros Hurl Hclient Hselect Hrows Hend.
  unfold reindex_script, reindex_main. rewrite Hurl, Hclient, Hselect.
  destruct (reindex_rows_completes jw rows 0 0 Hrows) as (lines & [ok fail] & ->).
  unfold try_finally. rewrite Hend. by split.
Qed.

Lemma reindex_survives_row_failures_witness :
  snd (reindex_main (job_service_down sample_rows)) = inr () /\
  snd (reindex_script (job_service_down sample_rows)) = None.
Proof.
  apply (reindex_survives_row_failures (job_service_down sample_rows)
           "postgres://db/app" sample_rows); try reflexivity.
  repeat constructor.
Defined.

(** ** app/(chat)/api/memory/rag/route.ts *)

Example POST_store_down :
  POST (sample_request (world_at 0 store_down) "theme" None)
  = {| response := inr {| http_status := 200; http_body := ResultBody failed_result |};
       strategy_calls := 1 |}.
Proof. reflexivity. Qed.

(** On a manager just built, a call whose fingerprint is computed always
    reaches the strategy. *)
Lemma retrieve_on_new_manager env w query hints cacheKey :
  RAGManager.key (RAGManager.new env None) query hints = inr cacheKey ->
  RAGManager.searches (RAGManager.retrieve w query hints (RAGManager.new env None)) = 1%nat /\
  RAGManager.settled (RAGManager.retrieve w query hints (RAGManager.new env None))
  = inr match driver_search (RAGManager.driver (RAGManager.new env None)) w query hints with
        | inr res => if ok res then res else failed_result
        | inl _ => failed_result
        end.
Proof.
  intros Hkey. unfold RAGManager.retrieve. rewrite Hkey.
  change (RAGManager.cache (RAGManager.new env None)) with (∅ : gmap string CacheEntry).
  rewrite lookup_empty. simpl.
  destruct (driver_search _ w query hints) as [e|res]; [by split |].
  by destruct (ok res).
Qed.

(** X22. The route builds a new manager for every request, so neither the
    cache nor the breaker ever stands between a request and the store: for
    a signed-in user and a body that validates to a non-empty query and
    hints without a BigInt, with a metrics collector that does not fail,
    the strategy is called exactly once.  The answer has status 200 and
    carries the strategy's result when it succeeded, the empty failure
    result when it failed in any way; only a successful result that cannot
    be serialised (a BigInt in the metadata) turns into a 500. *)
Theorem POST_reaches_strategy_every_time
    (rw : RouteWorld) (query : string) (hints : option Hints) :
  session_user rw = inr true ->
  safeParse rw (match request_json rw with inl _ => JsObject [] | inr v => v end)
  = inr (query, hints) ->
  query <> "" ->
  has_bigint (JsObject (default [] hints)) = false ->
  getMetricsCollector rw = inr () ->
  (forall name, metrics_increment rw name = inr ()) ->
  (forall name start, metrics_recordLatency rw name start = inr ()) ->
  strategy_calls (POST rw) = 1%nat /\
  response (POST rw)
  = inr match driver_search (RAGManager.driver (RAGManager.new (route_env rw) None))
                            (route_env rw) query hints with
        | inr res =>
            if ok res then
              if body_has_bigint (ResultBody res)
              then {| http_status := 500;
                      http_body := ErrorBody "rag_failed" None
                                     (Some "Do not know how to serialize a BigInt") |}
              else {| http_status := 200; http_body := ResultBody res |}
            else {| http_status := 200; http_body := ResultBody failed_result |}
        | inl _ => {| http_status := 200; http_body := ResultBody failed_result |}
        end.
Proof.
  intros Hauth Hparse Hquery Hclean Hcollector Hincrement Hlatency.
  pose proof (stringify_throws_iff_bigint (JsObject (default [] hints))) as Hstr.
  rewrite Hclean in Hstr. destruct Hstr as [str Hstr].
  destruct (retrieve_on_new_manager (route_env rw) (route_env rw) query hints
              (provider_name (RAGManager.driver (RAGManager.new (route_env rw) None))
               +:+ ":" +:+ query +:+ ":" +:+ template_of str))
    as [Hsearch Hsettled].
  { unfold RAGManager.key. rewrite Hstr. reflexivity. }
  unfold POST. rewrite Hauth, Hparse.
  destruct query as [|c query]; [by contradict Hquery |].
  simpl. rewrite Hcollector, Hincrement. split; [exact Hsearch |].
  unfold rag_attempt, rag_failed, try_catch, mbind, Js_bind.
  rewrite Hcollector, Hincrement, Hsettled, Hlatency.
  destruct (driver_search _ (route_env rw) (String c query) hints) as [e|res] eqn:Hres.
  - simpl. rewrite Hincrement. reflexivity.
  - destruct (ok res) eqn:Hok.
    + apply driver_search_result in Hres as [-> | (_ & Hdeg & _)]; [discriminate |].
      unfold is_degraded. rewrite Hdeg. unfold mret, Js_ret, NextResponse_json. simpl.
      destruct (existsb _ (snippets res)); simpl; rewrite ?Hincrement; reflexivity.
    + simpl. rewrite Hincrement. reflexivity.
Qed.

Lemma POST_reaches_strategy_every_time_witness :
  strategy_calls (POST (sample_request (world_at 1000 store_up) "theme" (Some []))) = 1%nat /\
  response (POST (sample_request (world_at 1000 store_up) "theme" (Some [])))
  = inr {| http_status := 200; http_body := ResultBody (result entry_theme) |}.
Proof.
  apply (POST_reaches_strategy_every_time
           (sample_request (world_at 1000 store_up) "theme" (Some [])) "theme" (Some []));
    try reflexivity.
  discriminate.
Defined.

(** X23. The statuses of the route: a response is 401, 400, 200 or 500 and
    nothing else.  401 goes exactly to requests without a signed-in user,
    with the body Unauthorized.  400 goes exactly to the requests of a
    signed-in user whose body does not validate, with the body bad_request
    and the issues of the validation, or validates to an empty query, with
    the body missing_query.  401 and 400 are sent without calling the
    strategy.  A 200 or a 500 answers a body that validated to a non-empty
    query; a 200 carries a retrieval result, and it is what retrieve
    returned for the validated query and hints on a manager built for this
    request; a 500 carries rag_failed and a message.  No request calls the
    strategy more than once. *)
Theorem POST_statuses (rw : RouteWorld) (resp : HttpResponse) :
  response (POST rw) = inr resp ->
  (strategy_calls (POST rw) <= 1)%nat /\
  ((http_status resp = 401%Z /\ session_user rw = inr false /\
    strategy_calls (POST rw) = 0%nat /\
    http_body resp = ErrorBody "Unauthorized" None None) \/
   (http_status resp = 400%Z /\ session_user rw = inr true /\
    strategy_calls (POST rw) = 0%nat /\
    ((exists issues,
        parsed rw = inl issues /\
        http_body resp = ErrorBody "bad_request" (Some issues) None) \/
     (exists hints,
        parsed rw = inr ("", hints) /\
        http_body resp = ErrorBody "missing_query" None None))) \/
   (http_status resp = 200%Z /\ session_user rw = inr true /\
    exists query hints r,
      parsed rw = inr (query, hints) /\ query <> "" /\
      RAGManager.settled
        (RAGManager.retrieve (route_env rw) query hints
           (RAGManager.new (route_env rw) None)) = inr r /\
      http_body resp = ResultBody r) \/
   (http_status resp = 500%Z /\ session_user rw = inr true /\
    exists query hints message,
      parsed rw = inr (query, hints) /\ query <> "" /\
      http_body resp = ErrorBody "rag_failed" None (Some message))).
Proof.
  unfold POST, parsed.
  destruct (session_user rw) as [e|[]]; [discriminate | |].
  - generalize (match request_json rw with
                | inl _ => JsObject []
                | inr v => v
                end).
    intros json.
    destruct (safeParse rw json) as [issues|[[|c query] hints]] eqn:Hparsed; simpl.
    + unfold NextResponse_json. destruct (body_has_bigint _); [discriminate |].
      intros [= <-]. split; [lia |]. right. left.
      do 3 (split; [reflexivity |]). left. by exists issues.
    + intros [= <-]. split; [lia |]. right. left.
      do 3 (split; [reflexivity |]). right. by exists hints.
    + intros Hresp. split.
      { repeat case_match; try lia. unfold RAGManager.retrieve.
        repeat case_match; simpl; lia. }
      right. right.
      unfold try_catch in Hresp.
      destruct (rag_attempt rw (String c query) hints) as [e|ok_resp] eqn:Hattempt.
      * right. unfold rag_failed, NextResponse_json, mbind, mret, Js_bind, Js_ret in Hresp.
        repeat case_match; simplify_eq/=. split; [reflexivity |]. split; [reflexivity |].
        eexists (String c query), hints, _. by repeat split.
      * injection Hresp as <-. left.
        unfold rag_attempt, NextResponse_json, mbind, mret, Js_bind, Js_ret, throw in Hattempt.
        repeat case_match; simplify_eq/=; split; try reflexivity; split; try reflexivity;
          eexists (String c query), hints, _; by repeat split.
  - unfold NextResponse_json. simpl. intros [= <-]. split; [lia |]. left. by repeat split.
Qed.

Lemma POST_statuses_witness :
  (strategy_calls (POST (sample_request (world_at 0 store_down) "theme" None)) <= 1)%nat.
Proof.
  destruct (POST_statuses (sample_request (world_at 0 store_down) "theme" None)
              {| http_status := 200; http_body := ResultBody failed_result |})
    as [Hcalls _]; [reflexivity | exact Hcalls].
Defined.
